(** * anti-work: the repository scanner and the work-hour classifier

    A shallow embedding of
    - [packages/server/src/services/workHour.ts] ([isOvertimeHour],
      [updateWorkHour]),
    - [packages/server/src/services/workTime.ts] ([calculateWorkTime],
      [calculateOvertimeStats]),
    - the agent's scanner ([loadState], [getUncommittedChanges],
      [getNewCommits], [parseGitStats], [scanRepositories]),
    together with the properties the specification states about them.

    JavaScript numbers that the code only ever uses as integers are [Z];
    [Record<string, T>] objects are [gmap string T]; the database tables are
    finite maps keyed by their unique constraint; every call that may throw
    returns an [option], and a [try]/[catch] is the [match] on it. *)

From Stdlib Require Import Ascii.
From stdpp Require Import gmap strings list fin_maps.

Local Open Scope Z_scope.

(** ** The JavaScript runtime functions the code calls *)

Module Js.

(** ASCII white space, as [String.prototype.trim] and the regular
    expression class [\s] see it on the output of git. *)
Definition isSpace (c : ascii) : bool :=
  let n := N_of_ascii c in
  (n =? 32)%N || ((9 <=? n)%N && (n <=? 13)%N).

(** The regular expression class [\d]. *)
Definition isDigit (c : ascii) : bool :=
  let n := N_of_ascii c in (48 <=? n)%N && (n <=? 57)%N.

Definition digitValue (c : ascii) : Z := Z.of_N (N_of_ascii c) - 48.

Definition digitChar (n : Z) : ascii := ascii_of_N (Z.to_N (48 + n mod 10)).

(** A JavaScript number that is an integer, or NaN. Every comparison with
    NaN is false. *)
Inductive number := NaN | Num (z : Z).

Global Instance number_eq_dec : EqDecision number.
Proof. solve_decision. Defined.

Definition lt (a b : number) : bool :=
  match a, b with Num x, Num y => x <? y | _, _ => false end.
Definition ge (a b : number) : bool :=
  match a, b with Num x, Num y => y <=? x | _, _ => false end.

(** [a === z] for an integer literal [z]. *)
Definition eqZ (a : number) (z : Z) : bool :=
  match a with Num x => x =? z | NaN => false end.

Fixpoint digitsValue (acc : Z) (s : string) : option Z :=
  match s with
  | EmptyString => Some acc
  | String c s' =>
      if isDigit c then digitsValue (10 * acc + digitValue c) s' else None
  end.

(** [Number(s)] on the strings the server stores: a run of decimal digits
    is its value, the empty string is 0. Any other string is NaN here (the
    configuration route only accepts two digits, a colon, two digits). *)
Definition Number (s : string) : number :=
  match digitsValue 0 s with Some z => Num z | None => NaN end.

(** [s.split(sep)] for a one-character separator; never the empty list. *)
Fixpoint split (sep : ascii) (s : string) : list string :=
  match s with
  | EmptyString => [EmptyString]
  | String c s' =>
      if Ascii.eqb c sep then EmptyString :: split sep s'
      else match split sep s' with
           | w :: ws => String c w :: ws
           | [] => [String c EmptyString]
           end
  end.

Fixpoint dropSpaces (s : string) : string :=
  match s with
  | EmptyString => EmptyString
  | String c s' => if isSpace c then dropSpaces s' else s
  end.

(** [s.trim()]. *)
Definition trim (s : string) : string :=
  String.rev (dropSpaces (String.rev (dropSpaces s))).

(** [a || b] on strings: the empty string is falsy. *)
Definition strOr (a : option string) (b : string) : string :=
  match a with
  | Some v => if decide (v = EmptyString) then b else v
  | None => b
  end.

Definition pad2 (n : Z) : string :=
  String (digitChar (n / 10)) (String (digitChar n) EmptyString).

Definition pad4 (n : Z) : string :=
  String (digitChar (n / 1000)) (String (digitChar (n / 100)) (pad2 n)).

(** A hexadecimal digit of [parseInt]. *)
Definition hexValue (c : ascii) : option Z :=
  let n := Z.of_N (N_of_ascii c) in
  if (48 <=? n) && (n <=? 57) then Some (n - 48)
  else if (97 <=? n) && (n <=? 102) then Some (n - 87)
  else if (65 <=? n) && (n <=? 70) then Some (n - 55)
  else None.

Definition decValue (c : ascii) : option Z :=
  if isDigit c then Some (digitValue c) else None.

(** The value of the longest prefix of digits; [None] when there is none. *)
Fixpoint digitsPrefix (radix : Z) (digit : ascii → option Z)
    (acc : option Z) (s : string) : option Z :=
  match s with
  | EmptyString => acc
  | String c s' =>
      match digit c with
      | Some d => digitsPrefix radix digit (Some (radix * default 0 acc + d)) s'
      | None => acc
      end
  end.

(** [parseInt(s)] with no radix: leading white space, a sign, a [0x] prefix
    for base 16, then the longest run of digits; NaN when there is none. *)
Definition parseInt (s : string) : number :=
  let s := dropSpaces s in
  let '(negative, s) :=
    match s with
    | String "-" r => (true, r)
    | String "+" r => (false, r)
    | _ => (false, s)
    end in
  let magnitude :=
    match s with
    | String "0" (String x r) =>
        if Ascii.eqb x "x" || Ascii.eqb x "X"
        then digitsPrefix 16 hexValue None r
        else digitsPrefix 10 decValue None s
    | _ => digitsPrefix 10 decValue None s
    end in
  match magnitude with
  | Some m => Num (if negative then - m else m)
  | None => NaN
  end.

End Js.

(** ** dayjs, read in the server's local time zone

    A [Date] (and the [Dayjs] wrapping it) is its local calendar day, counted
    from 1970-01-01, and the milliseconds elapsed in that day. *)

Module Dayjs.

Record t := mk { dayNumber : Z; msOfDay : Z }.

(** [.day()]: 0 is Sunday, 6 is Saturday; 1970-01-01 was a Thursday. *)
Definition day (d : t) : Z := (dayNumber d + 4) mod 7.

(** [.hour()]. *)
Definition hour (d : t) : Z := msOfDay d / 3600000.

(** Year, month and day of the month of a day number (proleptic Gregorian
    calendar). *)
Definition civil (n : Z) : Z * Z * Z :=
  let z := n + 719468 in
  let era := z / 146097 in
  let doe := z - era * 146097 in
  let yoe := (doe - doe / 1460 + doe / 36524 - doe / 146096) / 365 in
  let doy := doe - (365 * yoe + yoe / 4 - yoe / 100) in
  let mp := (5 * doy + 2) / 153 in
  let d := doy - (153 * mp + 2) / 5 + 1 in
  let m := if mp <? 10 then mp + 3 else mp - 9 in
  let y := yoe + era * 400 + (if m <=? 2 then 1 else 0) in
  (y, m, d).

(** The day number of a calendar date. *)
Definition daysFromCivil (y m d : Z) : Z :=
  let y' := if m <=? 2 then y - 1 else y in
  let era := y' / 400 in
  let yoe := y' - era * 400 in
  let mp := if 2 <? m then m - 3 else m + 9 in
  let doy := (153 * mp + 2) / 5 + d - 1 in
  let doe := yoe * 365 + yoe / 4 - yoe / 100 + doy in
  era * 146097 + doe - 719468.

(** [.format('YYYY-MM-DD')], for the years 0000 to 9999. *)
Definition format (d : t) : string :=
  let '(y, m, dd) := civil (dayNumber d) in
  Js.pad4 y +:+ "-" +:+ Js.pad2 m +:+ "-" +:+ Js.pad2 dd.

Definition isBefore (a b : t) : bool :=
  (dayNumber a <? dayNumber b)
  || ((dayNumber a =? dayNumber b) && (msOfDay a <? msOfDay b)).

(** [a.isSame(b, 'day')]. *)
Definition isSameDay (a b : t) : bool := dayNumber a =? dayNumber b.

(** [a.add(1, 'day')]. *)
Definition addDay (a : t) : t := mk (dayNumber a + 1) (msOfDay a).

(** [dayjs(s).day()] for a date string: a string of the shape the server
    writes (four digits, a dash, two digits, a dash, two digits, with month
    1 to 12) is that calendar date; any other string is taken as an invalid
    date, whose [.day()] is NaN. *)
Definition dayOfString (s : string) : Js.number :=
  match Js.split "-" s with
  | [y; m; d] =>
      if (String.length y =? 4)%nat && (String.length m =? 2)%nat
         && (String.length d =? 2)%nat
      then match Js.Number y, Js.Number m, Js.Number d with
           | Js.Num y, Js.Num m, Js.Num d =>
               if (1 <=? m) && (m <=? 12)
               then Js.Num ((daysFromCivil y m d + 4) mod 7)
               else Js.NaN
           | _, _, _ => Js.NaN
           end
      else Js.NaN
  | _ => Js.NaN
  end.

End Dayjs.

(** ** The server: work-hour buckets *)

Module Server.

(** A row of the [userConfig] table (the work-time columns). *)
Record UserConfig := mkUserConfig {
  workTimeStart : string;
  workTimeEnd : string;
  lunchStart : string;
  lunchEnd : string;
}.

(** A row of the [workHour] table. *)
Record WorkHour := mkWorkHour {
  id : Z;
  userId : Z;
  date : string;
  hour : Z;
  hasActivity : bool;
  codeChanges : Z;
  webActivities : Z;
  isOvertime : bool;
}.

(** The two tables the service reads and writes. [userConfig] is unique on
    [userId]; [workHour] is unique on [(userId, date, hour)], so the row
    that [findUnique] returns and [update where id] rewrites is the row
    under that key. *)
Record Database := mkDatabase {
  userConfig : gmap Z UserConfig;
  workHour : gmap (Z * string * Z) WorkHour;
  nextId : Z;
}.

Inductive ActivityType := code | web.

Global Instance ActivityType_eq_dec : EqDecision ActivityType.
Proof. solve_decision. Defined.

(** The first element of [s.split(':').map(Number)]. *)
Definition boundaryHour (s : string) : Js.number :=
  match Js.Number <$> Js.split ":" s with
  | h :: _ => h
  | [] => Js.NaN
  end.

Definition isOvertimeHour (db : Database) (userId : Z) (date : Dayjs.t)
    (hour : Z) : bool :=
  let userConfig := userConfig db !! userId in
  let workTimeStart := Js.strOr (workTimeStart <$> userConfig) "09:00" in
  let workTimeEnd := Js.strOr (workTimeEnd <$> userConfig) "18:00" in
  let lunchStart := Js.strOr (lunchStart <$> userConfig) "12:00" in
  let lunchEnd := Js.strOr (lunchEnd <$> userConfig) "14:00" in
  let dayOfWeek := Dayjs.day date in
  if (dayOfWeek =? 0) || (dayOfWeek =? 6) then true
  else
    let startHour := boundaryHour workTimeStart in
    let endHour := boundaryHour workTimeEnd in
    let lunchStartHour := boundaryHour lunchStart in
    let lunchEndHour := boundaryHour lunchEnd in
    if Js.ge (Js.Num hour) lunchStartHour && Js.lt (Js.Num hour) lunchEndHour
    then false
    else if Js.lt (Js.Num hour) startHour || Js.ge (Js.Num hour) endHour
    then true
    else false.

Definition updateWorkHour (db : Database) (userId : Z) (recordedAt : Dayjs.t)
    (type : ActivityType) (count : Z) : Database :=
  let date := Dayjs.format recordedAt in
  let hour := Dayjs.hour recordedAt in
  let isOvertime := isOvertimeHour db userId recordedAt hour in
  match workHour db !! (userId, date, hour) with
  | Some existing =>
      let updated :=
        {| id := id existing; userId := Server.userId existing;
           date := Server.date existing; hour := Server.hour existing;
           hasActivity := true;
           codeChanges := if decide (type = code)
                          then codeChanges existing + count
                          else codeChanges existing;
           webActivities := if decide (type = web)
                            then webActivities existing + count
                            else webActivities existing;
           isOvertime := Server.isOvertime existing |} in
      {| userConfig := userConfig db;
         workHour := <[(userId, date, hour) := updated]> (workHour db);
         nextId := nextId db |}
  | None =>
      let created :=
        {| id := nextId db; userId := userId; date := date; hour := hour;
           hasActivity := true;
           codeChanges := if decide (type = code) then count else 0;
           webActivities := if decide (type = web) then count else 0;
           isOvertime := isOvertime |} in
      {| userConfig := userConfig db;
         workHour := <[(userId, date, hour) := created]> (workHour db);
         nextId := nextId db + 1 |}
  end.

(** What reaches the two tables between two reads: an activity report, or
    the configuration route rewriting (or deleting) a user's row. *)
Inductive Request :=
| Track (userId : Z) (recordedAt : Dayjs.t) (type : ActivityType) (count : Z)
| Configure (userId : Z) (config : option UserConfig).

Definition handle (db : Database) (r : Request) : Database :=
  match r with
  | Track u at_ ty n => updateWorkHour db u at_ ty n
  | Configure u c =>
      {| userConfig := match c with
                       | Some c => <[u := c]> (userConfig db)
                       | None => delete u (userConfig db)
                       end;
         workHour := workHour db;
         nextId := nextId db |}
  end.

Definition serve (rs : list Request) (db : Database) : Database :=
  fold_left handle rs db.

(** *** workTime.ts *)

Record WorkTime := mkWorkTime {
  totalHours : Z;
  normalHours : Z;
  overtimeHours : Z;
}.

Definition calculateWorkTime (workHours : list WorkHour) : WorkTime :=
  let activeHours := filter (λ h, hasActivity h = true) workHours in
  let totalHours := Z.of_nat (length activeHours) in
  let overtimeHours :=
    Z.of_nat (length (filter (λ h, isOvertime h = true) activeHours)) in
  let normalHours := totalHours - overtimeHours in
  {| totalHours := totalHours; normalHours := normalHours;
     overtimeHours := overtimeHours |}.

Record OvertimeStats := mkOvertimeStats {
  totalOvertimeHours : Z;
  weekdayOvertimeHours : Z;
  weekendOvertimeHours : Z;
  dailyOvertime : gmap string Z;
  overtimeByHour : gmap Z Z;
}.

(** The [while] loop that gives every day of the range a zero entry; [fuel]
    bounds the number of iterations. *)
Fixpoint initDaily (fuel : nat) (current endDate : Dayjs.t)
    (dailyOvertime : gmap string Z) : gmap string Z :=
  match fuel with
  | O => dailyOvertime
  | S fuel' =>
      if Dayjs.isBefore current endDate || Dayjs.isSameDay current endDate
      then initDaily fuel' (Dayjs.addDay current) endDate
             (<[Dayjs.format current := 0]> dailyOvertime)
      else dailyOvertime
  end.

(** The number of iterations after which the loop condition is false. *)
Definition daysInRange (startDate endDate : Dayjs.t) : nat :=
  Z.to_nat (Dayjs.dayNumber endDate - Dayjs.dayNumber startDate + 1).

(** The [for] loop that gives every hour 0..23 a zero entry. *)
Definition initByHour : gmap Z Z :=
  fold_left (λ m h, <[h := 0]> m) (seqZ 0 24) ∅.

(** The body of the loop over the buckets, on the four accumulators. *)
Definition countOvertime (acc : OvertimeStats) (wh : WorkHour) : OvertimeStats :=
  if negb (hasActivity wh) || negb (isOvertime wh) then acc
  else
    let dayOfWeek := Dayjs.dayOfString (date wh) in
    let isWeekend := Js.eqZ dayOfWeek 0 || Js.eqZ dayOfWeek 6 in
    let daily :=
      match dailyOvertime acc !! date wh with
      | Some n => <[date wh := n + 1]> (dailyOvertime acc)
      | None => dailyOvertime acc
      end in
    let byHour :=
      <[hour wh := default 0 (overtimeByHour acc !! hour wh) + 1]>
        (overtimeByHour acc) in
    {| totalOvertimeHours := totalOvertimeHours acc;
       weekdayOvertimeHours :=
         if isWeekend then weekdayOvertimeHours acc
         else weekdayOvertimeHours acc + 1;
       weekendOvertimeHours :=
         if isWeekend then weekendOvertimeHours acc + 1
         else weekendOvertimeHours acc;
       dailyOvertime := daily;
       overtimeByHour := byHour |}.

Definition calculateOvertimeStats (workHours : list WorkHour)
    (startDate endDate : Dayjs.t) : OvertimeStats :=
  let dailyOvertime :=
    initDaily (daysInRange startDate endDate) startDate endDate ∅ in
  let counted :=
    fold_left countOvertime workHours
      {| totalOvertimeHours := 0; weekdayOvertimeHours := 0;
         weekendOvertimeHours := 0; dailyOvertime := dailyOvertime;
         overtimeByHour := initByHour |} in
  {| totalOvertimeHours :=
       weekdayOvertimeHours counted + weekendOvertimeHours counted;
     weekdayOvertimeHours := weekdayOvertimeHours counted;
     weekendOvertimeHours := weekendOvertimeHours counted;
     dailyOvertime := Server.dailyOvertime counted;
     overtimeByHour := overtimeByHour counted |}.

(** The sum of the values of a [Record<K, number>]. *)
Definition sumValues `{Countable K} (m : gmap K Z) : Z :=
  map_fold (λ _ v acc, v + acc) 0 m.

End Server.

(** ** The server: routes/stats.ts *)

Module StatsRoute.

(** The JWT payload the authentication hook leaves in [request.user]. *)
Record JwtPayload := mkJwtPayload {
  userId : Z;
  username : string;
  isAdmin : bool;
}.

(** [getUserIdFilter]: [None] is [undefined]. *)
Definition getUserIdFilter (user : JwtPayload) (queryUserId : option string)
    : option Js.number :=
  if isAdmin user then
    match queryUserId with
    | Some q => if decide (q = EmptyString) then None else Some (Js.parseInt q)
    | None => None
    end
  else Some (Js.Num (userId user)).

(** [userIdFilter ? { userId: userIdFilter } : {}]: [None] is the empty
    condition; 0 and NaN are falsy. *)
Definition whereUser (userIdFilter : option Js.number) : option Z :=
  match userIdFilter with
  | Some (Js.Num z) => if z =? 0 then None else Some z
  | _ => None
  end.

Definition matchesWhere (date : string) (whereUser : option Z)
    (row : Server.WorkHour) : bool :=
  bool_decide (Server.date row = date)
  && match whereUser with
     | Some u => Server.userId row =? u
     | None => true
     end.

(** [prisma.workHour.findMany({ where: { date, ...whereUser } })], in the
    order the table lists its rows. *)
Definition findWorkHours (db : Server.Database) (date : string)
    (whereUser : option Z) : list Server.WorkHour :=
  filter (λ row, matchesWhere date whereUser row = true)
    (map_to_list (Server.workHour db)).*2.

(** A value of [hourlyMap]. *)
Record HourData := mkHourData {
  hasActivity : bool;
  codeChanges : Z;
  webActivities : Z;
  isOvertime : bool;
}.

(** The body of the loop that fills [hourlyMap]. *)
Definition addToHourlyMap (hourlyMap : gmap Z HourData)
    (wh : Server.WorkHour) : gmap Z HourData :=
  match hourlyMap !! Server.hour wh with
  | Some existing =>
      <[Server.hour wh :=
          {| hasActivity := hasActivity existing || Server.hasActivity wh;
             codeChanges := codeChanges existing + Server.codeChanges wh;
             webActivities := webActivities existing + Server.webActivities wh;
             isOvertime := isOvertime existing || Server.isOvertime wh |}]>
        hourlyMap
  | None =>
      <[Server.hour wh :=
          {| hasActivity := Server.hasActivity wh;
             codeChanges := Server.codeChanges wh;
             webActivities := Server.webActivities wh;
             isOvertime := Server.isOvertime wh |}]> hourlyMap
  end.

(** An element of [hourlyHeatmap]: the hour and its data. *)
Record HeatmapCell := mkHeatmapCell {
  cellHour : Z;
  cellData : HourData;
}.

(** [hourlyHeatmap] of the [/today] route. *)
Definition hourlyHeatmap (workHours : list Server.WorkHour)
    : list HeatmapCell :=
  let hourlyMap := fold_left addToHourlyMap workHours ∅ in
  (λ hour,
     let hourData := hourlyMap !! hour in
     {| cellHour := hour;
        cellData :=
          {| hasActivity := default false (hasActivity <$> hourData);
             codeChanges := default 0 (codeChanges <$> hourData);
             webActivities := default 0 (webActivities <$> hourData);
             isOvertime := default false (isOvertime <$> hourData) |} |})
  <$> seqZ 0 24.

End StatsRoute.

(** ** Node's [path] and string functions the scanner calls *)

Module Path.

Definition isSlash (c : ascii) : bool := Ascii.eqb c "/".

Fixpoint dropSlashes (s : string) : string :=
  match s with
  | EmptyString => EmptyString
  | String c s' => if isSlash c then dropSlashes s' else s
  end.

Fixpoint untilSlash (s : string) : string :=
  match s with
  | EmptyString => EmptyString
  | String c s' => if isSlash c then EmptyString else String c (untilSlash s')
  end.

(** [path.basename(p)] (POSIX): trailing separators are ignored, the result
    is what follows the last remaining separator. *)
Definition basename (p : string) : string :=
  String.rev (untilSlash (dropSlashes (String.rev p))).

(** [s.includes(p)]. *)
Fixpoint includes (s p : string) : bool :=
  if String.prefix p s then true
  else match s with
       | EmptyString => false
       | String _ s' => includes s' p
       end.

(** [gitDir.replace(/[/\\]\.git$/, '')]. *)
Definition stripDotGit (gitDir : string) : string :=
  match String.rev gitDir with
  | String "t" (String "i" (String "g" (String "." (String c r)))) =>
      if Ascii.eqb c "/" || Ascii.eqb c "\" then String.rev r else gitDir
  | _ => gitDir
  end.

End Path.

(** ** git, as simple-git shows it to the scanner

    One repository at the time of a pass: the commits of its object store,
    each with its parents, and the commit that HEAD names. A call that
    throws is [None]. *)

Module Git.

Record Commit := mkCommit {
  hash : string;
  time : Z;               (* committer date, seconds since the epoch *)
  parents : list string;
}.

Global Instance Commit_eq_dec : EqDecision Commit.
Proof. solve_decision. Defined.

Record DiffSummary := mkDiffSummary {
  insertions : Z;
  deletions : Z;
  files : list string;
}.

Record t := mk {
  headBranch : option string;          (* rev-parse --abbrev-ref HEAD *)
  head : option string;                (* the commit HEAD names, if any *)
  history : list Commit;               (* every commit of the object store,
                                          on the checked-out branch or not,
                                          in the order git lists commits:
                                          newest first, a commit before its
                                          parents *)
  logWorks : bool;                     (* false: git log throws *)
  showStat : string → option string;   (* show <hash> --stat --format= *)
  diffStat : option string;            (* diff HEAD --stat *)
  diffSummaryHead : option DiffSummary;(* diffSummary(['HEAD']) *)
}.

(** [{ from: lastHash }] and [{ '--since': date }], the date in
    milliseconds since the epoch (the argument of [new Date]). *)
Inductive LogOptions := From (lastHash : string) | Since (date : Z).

(** The revision walk over the listed commits. A commit is reached when its
    hash is wanted: it is a starting point, or a parent of a commit the walk
    has shown. A reached commit that [keep] rejects is not shown and the walk
    does not go on through it. *)
Fixpoint walk (keep : Commit → bool) (wanted : gset string)
    (commits : list Commit) : list Commit :=
  match commits with
  | [] => []
  | c :: commits' =>
      if decide (hash c ∈ wanted) then
        if keep c
        then c :: walk keep (wanted ∪ list_to_set (parents c)) commits'
        else walk keep wanted commits'
      else walk keep wanted commits'
  end.

(** The commit named [h] and its ancestors. *)
Definition ancestors (git : t) (h : string) : list Commit :=
  walk (λ _, true) {[h]} (history git).

(** The checked-out branch: the commit HEAD names and its ancestors. *)
Definition branch (git : t) : list Commit :=
  from_option (ancestors git) [] (head git).

Definition revparse (git : t) : option string := headBranch git.

(** [show <hash> --format=%H --quiet] succeeds when the hash names a commit
    of the object store, on the checked-out branch or not. *)
Definition showQuiet (git : t) (h : string) : option unit :=
  if decide (h ∈ hash <$> history git) then Some () else None.

(** A commit reachable from exactly one of the two sides of [a...b]. *)
Definition onOneSide (a b : list Commit) (c : Commit) : Prop :=
  (c ∈ a ∧ c ∉ b) ∨ (c ∈ b ∧ c ∉ a).

Global Instance onOneSide_dec a b c : Decision (onOneSide a b c).
Proof. unfold onOneSide. apply _. Defined.

(** [log]. It throws in a repository without a commit. With [from],
    simple-git passes the range [lastHash...] to git: the commits reachable
    from [lastHash] or from HEAD but not from both. With [--since], git walks
    down from HEAD and does not go past a commit whose date, in seconds, is
    before the date given, of which git drops the fraction of a second.
    [.all] lists the newest commit first. *)
Definition log (git : t) (o : LogOptions) : option (list Commit) :=
  if logWorks git then
    tip ← head git;
    match o with
    | From h =>
        _ ← showQuiet git h;
        Some (filter (onOneSide (ancestors git h) (ancestors git tip))
                (history git))
    | Since d => Some (walk (λ c, d / 1000 <=? time c) {[tip]} (history git))
    end
  else None.

Definition show (git : t) (h : string) : option string := showStat git h.
Definition diff (git : t) : option string := diffStat git.
Definition diffSummary (git : t) : option DiffSummary := diffSummaryHead git.

End Git.

(** ** The agent: scanner.ts *)

Module Scanner.

Record RepoChange := mkRepoChange {
  repoName : string;
  branch : string;
  linesAdded : Z;
  linesDeleted : Z;
  filesChanged : Z;
  isCommitted : bool;
  commitHash : option string;
}.

(** [InternalRepoChange extends RepoChange]: the extra field, and the
    fields of the base interface. *)
Record InternalRepoChange := mkInternalRepoChange {
  _repoPath : string;
  change : RepoChange;
}.

Module Stats.
Record t := mk { linesAdded : Z; linesDeleted : Z; filesChanged : Z }.
Definition zero : t := mk 0 0 0.
End Stats.

Record ScannerState := mkScannerState {
  lastCommitHashes : gmap string string;
  lastDiffHashes : gmap string string;
  lastUncommittedStats : gmap string Stats.t;
}.

(** *** loadState *)

(** The values [JSON.parse] can return. *)
#[warnings="-register-all"]
Inductive JsValue :=
| JNull
| JBool (b : bool)
| JNum (n : Z)
| JStr (s : string)
| JArr (items : list JsValue)
| JObj (fields : list (string * JsValue)).

(** The state file: absent, present but [readFileSync] throws, or present
    with a text that [JSON.parse] rejects ([None]) or turns into a value. *)
Inductive StateFile :=
| FileAbsent
| FileUnreadable
| FileContent (parsed : option JsValue).

(** What [loadState] returns before TypeScript's declared type is trusted:
    three JavaScript values. *)
Record LoadedState := mkLoadedState {
  loadedCommitHashes : JsValue;
  loadedDiffHashes : JsValue;
  loadedUncommittedStats : JsValue;
}.

Definition truthy (v : JsValue) : bool :=
  match v with
  | JNull => false
  | JBool b => b
  | JNum n => negb (n =? 0)
  | JStr s => negb (bool_decide (s = EmptyString))
  | JArr _ | JObj _ => true
  end.

(** The last binding of a key wins in a parsed object. *)
Fixpoint lookupField (k : string) (fields : list (string * JsValue))
    : option JsValue :=
  match fields with
  | [] => None
  | (k', v) :: rest =>
      match lookupField k rest with
      | Some v' => Some v'
      | None => if decide (k' = k) then Some v else None
      end
  end.

(** [parsed.k]: a TypeError on [null] (the outer [None]), [undefined] (the
    inner [None]) on a missing key and on values that are not objects. *)
Definition getProp (parsed : JsValue) (k : string) : option (option JsValue) :=
  match parsed with
  | JNull => None
  | JObj fields => Some (lookupField k fields)
  | _ => Some None
  end.

(** [x || {}]. *)
Definition orEmptyObject (x : option JsValue) : JsValue :=
  match x with
  | Some v => if truthy v then v else JObj []
  | None => JObj []
  end.

Definition emptyLoadedState : LoadedState :=
  {| loadedCommitHashes := JObj []; loadedDiffHashes := JObj [];
     loadedUncommittedStats := JObj [] |}.

Definition loadState (file : StateFile) : LoadedState :=
  let attempt : option LoadedState :=
    match file with
    | FileAbsent => None
    | FileUnreadable => None
    | FileContent None => None
    | FileContent (Some parsed) =>
        a ← getProp parsed "lastCommitHashes";
        b ← getProp parsed "lastDiffHashes";
        c ← getProp parsed "lastUncommittedStats";
        Some {| loadedCommitHashes := orEmptyObject a;
                loadedDiffHashes := orEmptyObject b;
                loadedUncommittedStats := orEmptyObject c |}
    end in
  match attempt with
  | Some st => st
  | None => emptyLoadedState
  end.

(** A [Record<string, T>] is a JavaScript object. *)
Definition isMap (v : JsValue) : bool :=
  match v with JObj _ => true | _ => false end.

(** *** parseGitStats *)

Fixpoint spanDigits (s : string) : string * string :=
  match s with
  | EmptyString => (EmptyString, EmptyString)
  | String c s' =>
      if Js.isDigit c
      then let '(d, r) := spanDigits s' in (String c d, r)
      else (EmptyString, s)
  end.

(** [(\d+)]: the longest run of digits, at least one. *)
Definition digits1 (s : string) : option (string * string) :=
  let '(d, r) := spanDigits s in
  if decide (d = EmptyString) then None else Some (d, r).

(** [\s+]. *)
Definition spaces1 (s : string) : option string :=
  match s with
  | EmptyString => None
  | String c s' => if Js.isSpace c then Some (Js.dropSpaces s') else None
  end.

Fixpoint literal (p s : string) : option string :=
  match p with
  | EmptyString => Some s
  | String a p' =>
      match s with
      | EmptyString => None
      | String b s' => if Ascii.eqb a b then literal p' s' else None
      end
  end.

(** [c?]. *)
Definition optChar (c : ascii) (s : string) : string :=
  match s with
  | EmptyString => s
  | String b s' => if Ascii.eqb b c then s' else s
  end.

(** [,\s+(\d+)\s+<word>s?<sign>], the body of either optional group. *)
Definition countGroup (word sign s : string) : option (string * string) :=
  s ← literal "," s;
  s ← spaces1 s;
  '(d, s) ← digits1 s;
  s ← spaces1 s;
  s ← literal word s;
  s ← literal sign (optChar "s" s);
  Some (d, s).

(** The regular expression of [parseGitStats] tried at the start of [s]:
    the three capture groups. No alternative of the expression can succeed
    after its greedy choice failed, so the greedy choice is the match. *)
Definition matchHere (s : string)
    : option (string * option string * option string) :=
  '(nFiles, s) ← digits1 s;
  s ← spaces1 s;
  s ← literal "file" s;
  s ← spaces1 (optChar "s" s);
  s ← literal "changed" s;
  let '(nIns, s) :=
    match countGroup "insertion" "(+)" s with
    | Some (d, s') => (Some d, s')
    | None => (None, s)
    end in
  let nDel := fst <$> countGroup "deletion" "(-)" s in
  Some (nFiles, nIns, nDel).

(** [summaryLine.match(...)]: the leftmost position where it matches. *)
Fixpoint matchStats (s : string)
    : option (string * option string * option string) :=
  match matchHere s with
  | Some m => Some m
  | None =>
      match s with
      | EmptyString => None
      | String _ s' => matchStats s'
      end
  end.

(** [parseInt(group) || 0]. *)
Definition parseIntOr0 (group : option string) : Z :=
  match group with
  | Some d => default 0 (Js.digitsValue 0 d)
  | None => 0
  end.

Definition parseGitStats (output : string) : Stats.t :=
  let lines := Js.split "010" (Js.trim output) in
  let summaryLine := default EmptyString (last lines) in
  match matchStats summaryLine with
  | Some (g1, g2, g3) =>
      {| Stats.filesChanged := parseIntOr0 (Some g1);
         Stats.linesAdded := parseIntOr0 g2;
         Stats.linesDeleted := parseIntOr0 g3 |}
  | None => Stats.zero
  end.

(** *** The scan *)

Section Scan.

(** [hashString]: the first 16 hex digits of the MD5 of the text. *)
Variable hashString : string → string.

Definition withCommitHash (state : ScannerState) (repoPath h : string)
    : ScannerState :=
  {| lastCommitHashes := <[repoPath := h]> (lastCommitHashes state);
     lastDiffHashes := lastDiffHashes state;
     lastUncommittedStats := lastUncommittedStats state |}.

Definition getUncommittedChanges (git : Git.t) (repoPath : string)
    (state : ScannerState) : option InternalRepoChange * ScannerState :=
  match Git.revparse git with
  | None => (None, state)
  | Some branch =>
  match Git.diff git with
  | None => (None, state)
  | Some diffOutput =>
      let lastStats :=
        default Stats.zero (lastUncommittedStats state !! repoPath) in
      if decide (Js.trim diffOutput = EmptyString) then
        (None,
         {| lastCommitHashes := lastCommitHashes state;
            lastDiffHashes := delete repoPath (lastDiffHashes state);
            lastUncommittedStats :=
              delete repoPath (lastUncommittedStats state) |})
      else
        let currentDiffHash := hashString diffOutput in
        let lastDiffHash := lastDiffHashes state !! repoPath in
        if decide (Some currentDiffHash = lastDiffHash) then (None, state)
        else
          match Git.diffSummary git with
          | None => (None, state)
          | Some diffSummary =>
              let currentStats :=
                {| Stats.linesAdded := Git.insertions diffSummary;
                   Stats.linesDeleted := Git.deletions diffSummary;
                   Stats.filesChanged :=
                     Z.of_nat (length (Git.files diffSummary)) |} in
              let deltaAdded :=
                Z.max 0 (Stats.linesAdded currentStats
                         - Stats.linesAdded lastStats) in
              let deltaDeleted :=
                Z.max 0 (Stats.linesDeleted currentStats
                         - Stats.linesDeleted lastStats) in
              let deltaFiles :=
                Z.max 0 (Stats.filesChanged currentStats
                         - Stats.filesChanged lastStats) in
              let state' :=
                {| lastCommitHashes := lastCommitHashes state;
                   lastDiffHashes :=
                     <[repoPath := currentDiffHash]> (lastDiffHashes state);
                   lastUncommittedStats :=
                     <[repoPath := currentStats]>
                       (lastUncommittedStats state) |} in
              if (deltaAdded =? 0) && (deltaDeleted =? 0) then (None, state')
              else
                (Some {| _repoPath := repoPath;
                         change :=
                           {| repoName := Path.basename repoPath;
                              branch := Js.trim branch;
                              linesAdded := deltaAdded;
                              linesDeleted := deltaDeleted;
                              filesChanged := deltaFiles;
                              isCommitted := false;
                              commitHash := None |} |},
                 state')
          end
  end
  end.

(** The body of the loop over the commits: the changes pushed so far and
    the state. *)
Definition processCommit (git : Git.t) (repoPath branch : string)
    (acc : list InternalRepoChange * ScannerState) (commit : Git.Commit)
    : list InternalRepoChange * ScannerState :=
  let '(changes, state) := acc in
  match Git.show git (Git.hash commit) with
  | None => (changes, state)
  | Some show =>
      let stats := parseGitStats show in
      let changes :=
        if 0 <? Stats.filesChanged stats then
          changes ++
          [{| _repoPath := repoPath;
              change :=
                {| repoName := Path.basename repoPath;
                   branch := Js.trim branch;
                   linesAdded := Stats.linesAdded stats;
                   linesDeleted := Stats.linesDeleted stats;
                   filesChanged := Stats.filesChanged stats;
                   isCommitted := true;
                   commitHash := Some (Git.hash commit) |} |}]
        else changes in
      (changes, withCommitHash state repoPath (Git.hash commit))
  end.

(** The [logOptions] chosen from the stored hash; [now] is [Date.now()]. *)
Definition chooseLogOptions (git : Git.t) (lastHash : option string)
    (now : Z) : Git.LogOptions :=
  match lastHash with
  | Some lastHash =>
      if decide (lastHash = EmptyString)
      then Git.Since (now - 60 * 60 * 1000)
      else match Git.showQuiet git lastHash with
           | Some _ => Git.From lastHash
           | None => Git.Since (now - 24 * 60 * 60 * 1000)
           end
  | None => Git.Since (now - 60 * 60 * 1000)
  end.

Definition getNewCommits (git : Git.t) (repoPath : string)
    (state : ScannerState) (now : Z)
    : list InternalRepoChange * ScannerState :=
  match Git.revparse git with
  | None => ([], state)
  | Some branch =>
      let lastHash := lastCommitHashes state !! repoPath in
      let logOptions := chooseLogOptions git lastHash now in
      match Git.log git logOptions with
      | None => ([], state)
      | Some all =>
          let commits := reverse all in
          fold_left (processCommit git repoPath branch) commits ([], state)
      end
  end.

(** The file system and the repositories under it, as one pass sees them. *)
Inductive PathKind := Missing | NotDirectory | Directory.

Record World := mkWorld {
  pathKind : string → PathKind;           (* existsSync, statSync *)
  hasDotGit : string → bool;              (* existsSync(join(p, '.git')) *)
  globGitDirs : string → option (list string); (* glob(join(p, '*', '.git')) *)
  simpleGit : string → option Git.t;      (* None: simpleGit(p) throws *)
}.

Record AgentConfig := mkAgentConfig {
  watchPaths : list string;
  excludePatterns : list string;
}.

Definition findGitRepos (w : World) (basePath : string)
    : option (list string) :=
  let repos := if hasDotGit w basePath then [basePath] else [] in
  gitDirs ← globGitDirs w basePath;
  Some (fold_left
          (λ repos gitDir,
             let repoPath := Path.stripDotGit gitDir in
             if decide (repoPath ∈ repos) then repos else repos ++ [repoPath])
          gitDirs repos).

Definition isExcluded (config : AgentConfig) (repoPath : string) : bool :=
  let repoName := Path.basename repoPath in
  existsb (λ p, Path.includes repoName p || Path.includes repoPath p)
    (excludePatterns config).

(** The body of the loop over the repositories of one watch path. *)
Definition scanRepo (w : World) (config : AgentConfig) (now : Z)
    (acc : list InternalRepoChange * ScannerState) (repoPath : string)
    : list InternalRepoChange * ScannerState :=
  let '(allChanges, state) := acc in
  if isExcluded config repoPath then (allChanges, state)
  else
    match simpleGit w repoPath with
    | None => (allChanges, state)
    | Some git =>
        let '(commits, state) := getNewCommits git repoPath state now in
        let allChanges := allChanges ++ commits in
        let '(uncommitted, state) :=
          getUncommittedChanges git repoPath state in
        match uncommitted with
        | Some u => (allChanges ++ [u], state)
        | None => (allChanges, state)
        end
    end.

(** The body of the loop over the watch paths. *)
Definition scanWatchPath (w : World) (config : AgentConfig) (now : Z)
    (acc : list InternalRepoChange * ScannerState) (watchPath : string)
    : list InternalRepoChange * ScannerState :=
  match pathKind w watchPath with
  | Missing | NotDirectory => acc
  | Directory =>
      match findGitRepos w watchPath with
      | None => acc
      | Some repos => fold_left (scanRepo w config now) repos acc
      end
  end.

(** The loop over the watch paths: [allChanges] and the state, from the
    state [loadState()] returned, read at the type TypeScript declares. *)
Definition scanPass (w : World) (config : AgentConfig) (now : Z)
    (state : ScannerState) : list InternalRepoChange * ScannerState :=
  fold_left (scanWatchPath w config now) (watchPaths config) ([], state).

(** One pass: the records with the internal field removed, and the state
    handed to [saveState]. *)
Definition scanRepositories (w : World) (config : AgentConfig) (now : Z)
    (state : ScannerState) : list RepoChange * ScannerState :=
  let '(allChanges, state) := scanPass w config now state in
  (change <$> allChanges, state).

End Scan.

(** *** saveState *)

Definition statsToJson (stats : Stats.t) : JsValue :=
  JObj [("linesAdded", JNum (Stats.linesAdded stats));
        ("linesDeleted", JNum (Stats.linesDeleted stats));
        ("filesChanged", JNum (Stats.filesChanged stats))].

(** A [Record<string, T>] as JSON: one field per key. *)
Definition recordToJson {A} (f : A → JsValue) (m : gmap string A) : JsValue :=
  JObj (prod_map id f <$> map_to_list m).

(** What [JSON.parse] returns for the text [JSON.stringify(state, null, 2)]
    writes. *)
Definition stateToJson (state : ScannerState) : JsValue :=
  JObj [("lastCommitHashes", recordToJson JStr (lastCommitHashes state));
        ("lastDiffHashes", recordToJson JStr (lastDiffHashes state));
        ("lastUncommittedStats",
         recordToJson statsToJson (lastUncommittedStats state))].

(** [mkdirSync] and [writeFileSync] go through, or one of them throws. *)
Inductive WriteOutcome := Written | Refused.

(** [saveState]: the state file afterwards. A refused write is caught and
    leaves the file as it was. *)
Definition saveState (outcome : WriteOutcome) (state : ScannerState)
    (file : StateFile) : StateFile :=
  match outcome with
  | Written => FileContent (Some (stateToJson state))
  | Refused => file
  end.

End Scanner.

(** * Properties *)

(** ** The hour classifier *)

Section Classifier.
Import Server.

(** The rules of the specification, on the four boundary hours. *)
Definition classify (weekend : bool)
    (workStart workEnd lunchFrom lunchTo hour : Z) : bool :=
  if weekend then true
  else if (lunchFrom <=? hour) && (hour <? lunchTo) then false
  else if (hour <? workStart) || (workEnd <=? hour) then true
  else false.

Definition isWeekend (date : Dayjs.t) : bool :=
  (Dayjs.day date =? 0) || (Dayjs.day date =? 6).

(** A boundary as the configuration route stores it: two digits for the
    hour, a colon, and the minutes. *)
Definition hhmm (h : Z) (minutes : string) : string :=
  Js.pad2 h +:+ ":" +:+ minutes.

Lemma split_nonempty sep s : Js.split sep s ≠ [].
Proof.
  destruct s as [|c s]; simpl; [done|].
  destruct (Ascii.eqb c sep); [done|].
  by destruct (Js.split sep s).
Qed.

Lemma split_head_other sep c s :
  Ascii.eqb c sep = false →
  head (Js.split sep (String c s))
  = String c <$> head (Js.split sep s).
Proof.
  intros Hc. simpl. rewrite Hc.
  pose proof (split_nonempty sep s) as Hne.
  by destruct (Js.split sep s).
Qed.

Definition twoDigitsOk (h : Z) : bool :=
  match Js.pad2 h with
  | String a (String b EmptyString) =>
      negb (Ascii.eqb a ":") && negb (Ascii.eqb b ":")
      && bool_decide (Js.Number (Js.pad2 h) = Js.Num h)
  | _ => false
  end.

Lemma twoDigitsOk_all h : 0 ≤ h < 100 → twoDigitsOk h = true.
Proof.
  intros Hh.
  assert (Hall : forallb twoDigitsOk (seqZ 0 100) = true) by by vm_compute.
  rewrite forallb_forall in Hall. apply Hall.
  apply list_elem_of_In, elem_of_seqZ. lia.
Qed.

Lemma boundaryHour_hhmm h minutes :
  0 ≤ h < 100 → boundaryHour (hhmm h minutes) = Js.Num h.
Proof.
  intros Hh. pose proof (twoDigitsOk_all h Hh) as Hok.
  unfold twoDigitsOk in Hok. unfold boundaryHour, hhmm.
  destruct (Js.pad2 h) as [|a [|b [|? ?]]] eqn:Hp; try done.
  apply andb_prop in Hok as [Hab Hnum]. apply andb_prop in Hab as [Ha Hb].
  apply negb_true_iff in Ha, Hb. apply bool_decide_eq_true in Hnum.
  change (String a (String b "") +:+ ":" +:+ minutes)
    with (String a (String b (String ":" minutes))).
  pose proof (split_head_other ":" a (String b (String ":" minutes)) Ha) as H1.
  pose proof (split_head_other ":" b (String ":" minutes) Hb) as H2.
  assert (H3 : head (Js.split ":" (String ":" minutes)) = Some "") by done.
  rewrite H3 in H2. rewrite H2 in H1.
  destruct (Js.split ":" (String a (String b (String ":" minutes))))
    as [|w ws]; [done|].
  injection H1 as ->. exact Hnum.
Qed.

(** C5. [isOvertimeHour] is a total function to [bool] whose value follows
    the fixed order of the rules: a Saturday or Sunday is overtime whatever
    the hour and the configured windows; otherwise an hour in
    [lunchStart, lunchEnd) is not overtime; otherwise an hour before
    [workStart] or from [workEnd] on is overtime; otherwise it is not. Only
    the hour of each configured "HH:MM" boundary is used (the text after the
    colon is ignored), and a user without a configuration row gets 09-18
    with lunch 12-14. *)
Theorem isOvertimeHour_rules (db : Database) (user : Z) (date : Dayjs.t)
    (hour : Z) :
  (isWeekend date = true → isOvertimeHour db user date hour = true)
  ∧ (userConfig db !! user = None →
     isOvertimeHour db user date hour
     = classify (isWeekend date) 9 18 12 14 hour)
  ∧ (∀ ws we ls le wsMin weMin lsMin leMin,
       0 ≤ ws < 100 → 0 ≤ we < 100 → 0 ≤ ls < 100 → 0 ≤ le < 100 →
       userConfig db !! user
       = Some {| workTimeStart := hhmm ws wsMin; workTimeEnd := hhmm we weMin;
                 lunchStart := hhmm ls lsMin; lunchEnd := hhmm le leMin |} →
       isOvertimeHour db user date hour
       = classify (isWeekend date) ws we ls le hour).
Proof.
  split; [|split].
  - unfold isOvertimeHour, isWeekend. by intros ->.
  - intros Hcfg. unfold isOvertimeHour. rewrite Hcfg.
    replace (boundaryHour (Js.strOr (workTimeStart <$> None) "09:00"))
      with (Js.Num 9) by reflexivity.
    replace (boundaryHour (Js.strOr (workTimeEnd <$> None) "18:00"))
      with (Js.Num 18) by reflexivity.
    replace (boundaryHour (Js.strOr (lunchStart <$> None) "12:00"))
      with (Js.Num 12) by reflexivity.
    replace (boundaryHour (Js.strOr (lunchEnd <$> None) "14:00"))
      with (Js.Num 14) by reflexivity.
    done.
  - intros ws we ls le wsMin weMin lsMin leMin Hws Hwe Hls Hle Hcfg.
    unfold isOvertimeHour. rewrite Hcfg.
    cbn [fmap option_fmap option_map workTimeStart workTimeEnd lunchStart
         lunchEnd].
    assert (Hne : ∀ h m d, Js.strOr (Some (hhmm h m)) d = hhmm h m).
    { intros h m d. unfold Js.strOr, hhmm, Js.pad2. by case_decide. }
    rewrite !Hne, !boundaryHour_hhmm by lia. done.
Qed.

(** A user whose row says 10:30-19:45 with lunch 13:15-14:00, on Monday
    2024-01-01: hour 9 is before work, hour 13 is lunch, hour 18 is still
    work, hour 19 is after work; the minutes play no part. *)
Lemma isOvertimeHour_rules_witness :
  let row := {| workTimeStart := "10:30"; workTimeEnd := "19:45";
                lunchStart := "13:15"; lunchEnd := "14:00" |} in
  let db := {| userConfig := {[7 := row]}; workHour := ∅; nextId := 1 |} in
  let monday := Dayjs.mk 19723 0 in
  isOvertimeHour db 7 monday 9 = true
  ∧ isOvertimeHour db 7 monday 13 = false
  ∧ isOvertimeHour db 7 monday 18 = false
  ∧ isOvertimeHour db 7 monday 19 = true.
Proof.
  intros row db monday.
  assert (Hrule : ∀ hour, isOvertimeHour db 7 monday hour
                          = classify (isWeekend monday) 10 19 13 14 hour).
  { intros hour.
    destruct (isOvertimeHour_rules db 7 monday hour) as (_ & _ & H).
    apply (H 10 19 13 14 "30" "45" "15" "00"); [lia..|done]. }
  rewrite !Hrule. by vm_compute.
Defined.

(** The scenarios of the specification, under the default configuration:
    2024-01-01 was a Monday, 2024-01-06 a Saturday. *)
Example isOvertimeHour_scenarios :
  let db := {| userConfig := ∅; workHour := ∅; nextId := 1 |} in
  isOvertimeHour db 7 (Dayjs.mk 19723 48600000) 13 = false
  ∧ isOvertimeHour db 7 (Dayjs.mk 19723 69000000) 19 = true
  ∧ isOvertimeHour db 7 (Dayjs.mk 19728 36000000) 10 = true
  ∧ isOvertimeHour db 7 (Dayjs.mk 19723 36000000) 10 = false.
Proof. by vm_compute. Qed.

End Classifier.

(** ** Work-hour buckets *)

Section Buckets.
Import Server.

Lemma updateWorkHour_keeps_isOvertime db user recordedAt type count key row :
  workHour db !! key = Some row →
  ∃ row', workHour (updateWorkHour db user recordedAt type count) !! key
          = Some row'
          ∧ isOvertime row' = isOvertime row.
Proof.
  intros Hrow. unfold updateWorkHour.
  set (k := (user, Dayjs.format recordedAt, Dayjs.hour recordedAt)).
  destruct (decide (k = key)) as [<-|Hne].
  - rewrite Hrow. simpl. rewrite lookup_insert_eq. eauto.
  - destruct (workHour db !! k); simpl; rewrite lookup_insert_ne by done;
      eauto.
Qed.

Lemma handle_keeps_isOvertime db request key row :
  workHour db !! key = Some row →
  ∃ row', workHour (handle db request) !! key = Some row'
          ∧ isOvertime row' = isOvertime row.
Proof.
  destruct request as [u t ty n|u c]; simpl.
  - apply updateWorkHour_keeps_isOvertime.
  - eauto.
Qed.

(** C6. Once a bucket exists under [(userId, date, hour)], no sequence of
    activity reports and configuration changes alters its [isOvertime]: an
    update writes [hasActivity], [codeChanges] and [webActivities] only. *)
Theorem isOvertime_frozen (requests : list Request) (db : Database)
    (key : Z * string * Z) (row : WorkHour) :
  workHour db !! key = Some row →
  ∃ row', workHour (serve requests db) !! key = Some row'
          ∧ isOvertime row' = isOvertime row.
Proof.
  revert db row. unfold serve.
  induction requests as [|r rs IH]; intros db row Hrow; simpl; [eauto|].
  destruct (handle_keeps_isOvertime db r key row Hrow) as (row1 & H1 & E1).
  destruct (IH _ _ H1) as (row2 & H2 & E2).
  exists row2. split; [done|congruence].
Qed.

(** A Monday lunch-hour bucket is created as not overtime. The user then
    moves the working day to 14-22 and the lunch break to 11-12, so that the
    classifier now calls hour 13 overtime; a second report in the same hour
    leaves the stored flag as it was. *)
Lemma isOvertime_frozen_witness :
  let monday := Dayjs.mk 19723 48600000 in
  let evening :=
    {| workTimeStart := "14:00"; workTimeEnd := "22:00";
       lunchStart := "11:00"; lunchEnd := "12:00" |} in
  let db := updateWorkHour {| userConfig := ∅; workHour := ∅; nextId := 1 |}
              7 monday web 1 in
  let later := [Configure 7 (Some evening); Track 7 monday code 3] in
  isOvertimeHour (handle db (Configure 7 (Some evening))) 7 monday 13 = true
  ∧ ∃ row', workHour (serve later db) !! (7, "2024-01-01", 13) = Some row'
            ∧ isOvertime row' = false.
Proof.
  intros monday evening db later. split; [by vm_compute|].
  apply (isOvertime_frozen later db (7, "2024-01-01", 13)
           {| id := 1; userId := 7; date := "2024-01-01"; hour := 13;
              hasActivity := true; codeChanges := 0; webActivities := 1;
              isOvertime := false |}).
  by vm_compute.
Defined.

(** What an update does write: the activity flag and the two counters. *)
Lemma updateWorkHour_existing db user recordedAt type count existing :
  workHour db !! (user, Dayjs.format recordedAt, Dayjs.hour recordedAt)
  = Some existing →
  workHour (updateWorkHour db user recordedAt type count)
    !! (user, Dayjs.format recordedAt, Dayjs.hour recordedAt)
  = Some {| id := id existing; userId := userId existing;
            date := date existing; hour := hour existing;
            hasActivity := true;
            codeChanges := if decide (type = code)
                           then codeChanges existing + count
                           else codeChanges existing;
            webActivities := if decide (type = web)
                             then webActivities existing + count
                             else webActivities existing;
            isOvertime := isOvertime existing |}.
Proof.
  intros H. unfold updateWorkHour. rewrite H. simpl.
  by rewrite lookup_insert_eq.
Qed.

(** In [calculateWorkTime] every active bucket is counted once in
    [totalHours], and in [normalHours] exactly when it is not overtime. *)
Lemma calculateWorkTime_cons bucket rest :
  calculateWorkTime (bucket :: rest)
  = let r := calculateWorkTime rest in
    if hasActivity bucket then
      if isOvertime bucket then
        {| totalHours := totalHours r + 1; normalHours := normalHours r;
           overtimeHours := overtimeHours r + 1 |}
      else
        {| totalHours := totalHours r + 1; normalHours := normalHours r + 1;
           overtimeHours := overtimeHours r |}
    else r.
Proof.
  unfold calculateWorkTime. rewrite filter_cons.
  destruct (hasActivity bucket) eqn:Ha; case_decide; try done.
  rewrite filter_cons.
  destruct (isOvertime bucket) eqn:Ho; case_decide; try done; simpl;
    f_equal; lia.
Qed.

(** C2 (the code departs from the claim). Under the default configuration an
    activity on Monday 2024-01-01 at 13:30 creates the hour-13 bucket with
    [isOvertime = false] and [hasActivity = true]; [calculateWorkTime]
    counts that lunch-hour bucket as one normal hour. *)
Theorem lunch_bucket_counted_as_normal :
  let db := updateWorkHour {| userConfig := ∅; workHour := ∅; nextId := 1 |}
              7 (Dayjs.mk 19723 48600000) code 1 in
  ∃ bucket,
    workHour db !! (7, "2024-01-01", 13) = Some bucket
    ∧ hasActivity bucket = true
    ∧ isOvertime bucket = false
    ∧ calculateWorkTime [bucket]
      = {| totalHours := 1; normalHours := 1; overtimeHours := 0 |}
    ∧ ∀ rest, normalHours (calculateWorkTime (bucket :: rest))
              = normalHours (calculateWorkTime rest) + 1.
Proof.
  eexists. split; [by vm_compute|]. repeat split.
  intros rest. by rewrite calculateWorkTime_cons.
Qed.

End Buckets.

(** ** Overtime statistics *)

Section Overtime.
Import Server.

Fixpoint countIf {A} (f : A → bool) (l : list A) : Z :=
  match l with
  | [] => 0
  | x :: l' => (if f x then 1 else 0) + countIf f l'
  end.

(** A bucket that the loop of [calculateOvertimeStats] does not skip. *)
Definition qualifies (wh : WorkHour) : bool :=
  hasActivity wh && isOvertime wh.

Definition onWeekend (wh : WorkHour) : bool :=
  Js.eqZ (Dayjs.dayOfString (date wh)) 0
  || Js.eqZ (Dayjs.dayOfString (date wh)) 6.

(** The key of a day in [dailyOvertime]. *)
Definition dayKey (d : Z) : string := Dayjs.format (Dayjs.mk d 0).

(** The entries the first loop creates. *)
Definition initialized (startDate endDate : Dayjs.t) : gmap string Z :=
  initDaily (daysInRange startDate endDate) startDate endDate ∅.

Definition inRange (startDate endDate : Dayjs.t) (wh : WorkHour) : bool :=
  bool_decide (is_Some (initialized startDate endDate !! date wh)).

Lemma countIf_nonneg {A} (f : A → bool) l : 0 ≤ countIf f l.
Proof. induction l as [|x l IH]; simpl; [done|]. destruct (f x); lia. Qed.

Lemma countIf_le {A} (f g : A → bool) l :
  (∀ x, f x = true → g x = true) → countIf f l ≤ countIf g l.
Proof.
  intros Hfg. induction l as [|x l IH]; simpl; [done|].
  destruct (f x) eqn:Hf; [rewrite (Hfg x Hf); lia|]. destruct (g x); lia.
Qed.

Lemma countIf_ext_in {A} (f g : A → bool) l :
  (∀ x, x ∈ l → f x = g x) → countIf f l = countIf g l.
Proof.
  induction l as [|x l IH]; intros Hfg; simpl; [done|].
  rewrite (Hfg x) by apply list_elem_of_here. f_equal. apply IH.
  intros y Hy. apply Hfg. by apply list_elem_of_further.
Qed.

Lemma sumValues_empty `{Countable K} : sumValues (∅ : gmap K Z) = 0.
Proof. apply map_fold_empty. Qed.

Lemma sumValues_insert `{Countable K} (m : gmap K Z) k v :
  m !! k = None → sumValues (<[k := v]> m) = v + sumValues m.
Proof.
  intros Hk. unfold sumValues.
  apply (map_fold_insert_L (λ _ v acc, v + acc)); [intros; lia|done].
Qed.

Lemma sumValues_update `{Countable K} (m : gmap K Z) k v :
  sumValues (<[k := v]> m) = sumValues m + (v - default 0 (m !! k)).
Proof.
  destruct (m !! k) as [v0|] eqn:Hk; simpl.
  - rewrite <- (insert_delete_id m k v0 Hk) at 2.
    rewrite <- insert_delete_eq.
    rewrite !sumValues_insert by apply lookup_delete_eq. lia.
  - rewrite sumValues_insert by done. lia.
Qed.

Lemma sumValues_zero `{Countable K} (m : gmap K Z) :
  (∀ k v, m !! k = Some v → v = 0) → sumValues m = 0.
Proof.
  unfold sumValues.
  apply (map_fold_weak_ind
           (λ r m, (∀ k v, m !! k = Some v → v = 0) → r = 0)).
  - done.
  - intros i x m' r Hi IH Hall.
    rewrite (Hall i x) by apply lookup_insert_eq.
    rewrite IH; [done|]. intros k v Hkv. apply (Hall k).
    rewrite lookup_insert_ne; [done|]. intros ->. congruence.
Qed.

Lemma format_dayKey d : Dayjs.format d = dayKey (Dayjs.dayNumber d).
Proof. done. Qed.

Lemma loop_condition current endDate :
  Dayjs.isBefore current endDate || Dayjs.isSameDay current endDate = true
  ↔ Dayjs.dayNumber current ≤ Dayjs.dayNumber endDate.
Proof.
  unfold Dayjs.isBefore, Dayjs.isSameDay.
  rewrite !orb_true_iff, andb_true_iff, !Z.ltb_lt, !Z.eqb_eq. lia.
Qed.

(** The keys of the first loop: those already there, and the days from
    [current] to [endDate] that the fuel reaches. *)
Lemma initDaily_lookup fuel current endDate m k :
  is_Some (initDaily fuel current endDate m !! k)
  ↔ is_Some (m !! k)
    ∨ ∃ d, Dayjs.dayNumber current ≤ d ≤ Dayjs.dayNumber endDate
           ∧ d < Dayjs.dayNumber current + Z.of_nat fuel
           ∧ k = dayKey d.
Proof.
  revert current m.
  induction fuel as [|fuel IH]; intros current m; simpl.
  - split; [auto|]. intros [?|(d & ? & ? & ?)]; [done|lia].
  - destruct (Dayjs.isBefore current endDate
              || Dayjs.isSameDay current endDate) eqn:Hc.
    + apply loop_condition in Hc. rewrite IH.
      cbn [Dayjs.addDay Dayjs.dayNumber].
      rewrite lookup_insert_is_Some', (format_dayKey current). split.
      * intros [[<-|?]|(d & ? & ? & ->)]; [right|by left|right].
        -- exists (Dayjs.dayNumber current). split; [lia|]. split; [lia|done].
        -- exists d. split; [lia|]. split; [lia|done].
      * intros [?|(d & ? & ? & ->)]; [by left; right|].
        destruct (decide (d = Dayjs.dayNumber current)) as [->|];
          [by left; left|].
        right. exists d. split; [lia|]. split; [lia|done].
    + assert (¬ Dayjs.dayNumber current ≤ Dayjs.dayNumber endDate) as Hn.
      { rewrite <- loop_condition. by rewrite Hc. }
      split; [auto|]. intros [?|(d & ? & ? & ?)]; [done|lia].
Qed.

Lemma initDaily_zero fuel current endDate m :
  (∀ k v, m !! k = Some v → v = 0) →
  ∀ k v, initDaily fuel current endDate m !! k = Some v → v = 0.
Proof.
  revert current m.
  induction fuel as [|fuel IH]; intros current m Hm; simpl; [done|].
  destruct (_ || _); [|done].
  apply IH. intros k v. rewrite lookup_insert_Some.
  intros [[_ <-]|[_ ?]]; [done|eauto].
Qed.

(** The loop stops because its condition is false, not because the fuel
    ran out: more fuel changes nothing. *)
Lemma initDaily_enough extra fuel current endDate m :
  Dayjs.dayNumber endDate - Dayjs.dayNumber current + 1 ≤ Z.of_nat fuel →
  initDaily (fuel + extra) current endDate m
  = initDaily fuel current endDate m.
Proof.
  revert current m.
  induction fuel as [|fuel IH]; intros current m Hfuel; simpl.
  - destruct extra as [|extra]; simpl; [done|].
    destruct (_ || _) eqn:Hc; [|done]. apply loop_condition in Hc. lia.
  - destruct (_ || _); [|done]. apply IH. simpl. lia.
Qed.

Lemma initialized_enough extra startDate endDate :
  initDaily (daysInRange startDate endDate + extra) startDate endDate ∅
  = initialized startDate endDate.
Proof. apply initDaily_enough. unfold daysInRange. lia. Qed.

Lemma initialized_keys startDate endDate k :
  is_Some (initialized startDate endDate !! k)
  ↔ ∃ d, Dayjs.dayNumber startDate ≤ d ≤ Dayjs.dayNumber endDate
         ∧ k = dayKey d.
Proof.
  unfold initialized. rewrite initDaily_lookup, lookup_empty.
  unfold daysInRange. split.
  - intros [[? [=]]|(d & ? & ? & ?)]. eauto.
  - intros (d & ? & ?). right. exists d. split; [done|]. split; [lia|done].
Qed.

(** One iteration of the counting loop, on the quantities of the claim. *)
Lemma countOvertime_step acc wh :
  let acc' := countOvertime acc wh in
  weekdayOvertimeHours acc' + weekendOvertimeHours acc'
  = weekdayOvertimeHours acc + weekendOvertimeHours acc
    + (if qualifies wh then 1 else 0)
  ∧ weekendOvertimeHours acc'
    = weekendOvertimeHours acc
      + (if qualifies wh && onWeekend wh then 1 else 0)
  ∧ sumValues (overtimeByHour acc')
    = sumValues (overtimeByHour acc) + (if qualifies wh then 1 else 0)
  ∧ sumValues (dailyOvertime acc')
    = sumValues (dailyOvertime acc)
      + (if qualifies wh
            && bool_decide (is_Some (dailyOvertime acc !! date wh))
         then 1 else 0)
  ∧ ∀ k, is_Some (dailyOvertime acc' !! k)
         ↔ is_Some (dailyOvertime acc !! k).
Proof.
  unfold countOvertime, qualifies, onWeekend.
  destruct (hasActivity wh), (isOvertime wh); simpl;
    try solve [repeat split; intros; first [lia|done]].
  split; [|split; [|split; [|split]]].
  - destruct (_ || _); lia.
  - destruct (_ || _); lia.
  - rewrite sumValues_update. lia.
  - destruct (dailyOvertime acc !! date wh) as [n|] eqn:Hd.
    + rewrite bool_decide_eq_true_2 by eauto.
      rewrite sumValues_update, Hd. simpl. lia.
    + rewrite bool_decide_eq_false_2 by (intros [? [=]]). lia.
  - intros k. destruct (dailyOvertime acc !! date wh) as [n|] eqn:Hd; [|done].
    rewrite lookup_insert_is_Some'. split; [|auto].
    intros [<-|?]; [eauto|done].
Qed.

Lemma countOvertime_fold workHours acc :
  let acc' := fold_left countOvertime workHours acc in
  weekdayOvertimeHours acc' + weekendOvertimeHours acc'
  = weekdayOvertimeHours acc + weekendOvertimeHours acc
    + countIf qualifies workHours
  ∧ weekendOvertimeHours acc'
    = weekendOvertimeHours acc
      + countIf (λ wh, qualifies wh && onWeekend wh) workHours
  ∧ sumValues (overtimeByHour acc')
    = sumValues (overtimeByHour acc) + countIf qualifies workHours
  ∧ sumValues (dailyOvertime acc')
    = sumValues (dailyOvertime acc)
      + countIf (λ wh, qualifies wh
                       && bool_decide (is_Some (dailyOvertime acc !! date wh)))
          workHours
  ∧ ∀ k, is_Some (dailyOvertime acc' !! k)
         ↔ is_Some (dailyOvertime acc !! k).
Proof.
  revert acc. induction workHours as [|wh whs IH]; intros acc; simpl.
  - repeat split; intros; try lia; done.
  - destruct (countOvertime_step acc wh) as (S1 & S2 & S3 & S4 & S5).
    destruct (IH (countOvertime acc wh)) as (I1 & I2 & I3 & I4 & I5).
    simpl in *. split; [lia|]. split; [lia|]. split; [lia|]. split.
    + rewrite I4, S4.
      rewrite (countIf_ext_in _
                 (λ wh0, qualifies wh0
                   && bool_decide (is_Some (dailyOvertime acc !! date wh0)))).
      * lia.
      * intros x _. f_equal. apply bool_decide_ext, S5.
    + intros k. by rewrite I5, S5.
Qed.

Lemma initByHour_zero k v : initByHour !! k = Some v → v = 0.
Proof.
  unfold initByHour.
  assert (Hgen : ∀ l (m : gmap Z Z),
    (∀ k v, m !! k = Some v → v = 0) →
    ∀ k v, fold_left (λ m h, <[h := 0]> m) l m !! k = Some v → v = 0).
  { induction l as [|h l IH]; intros m Hm; simpl; [done|].
    apply IH. intros k' v'. rewrite lookup_insert_Some.
    intros [[_ <-]|[_ ?]]; [done|eauto]. }
  apply Hgen. intros k' v'. by rewrite lookup_empty.
Qed.

(** C10. Every bucket with [hasActivity] and [isOvertime] is counted in
    [totalOvertimeHours], in the weekday/weekend split and in
    [overtimeByHour], whether or not its date lies in the range; only those
    whose date has an entry from the first loop (the days from [startDate]
    to [endDate]) are counted in [dailyOvertime]. So the total is the sum of
    the two parts, is at least the sum of the daily values, and equals it
    when every counted bucket is in range. *)
Theorem overtime_totals (workHours : list WorkHour)
    (startDate endDate : Dayjs.t) :
  let r := calculateOvertimeStats workHours startDate endDate in
  totalOvertimeHours r = weekdayOvertimeHours r + weekendOvertimeHours r
  ∧ totalOvertimeHours r = countIf qualifies workHours
  ∧ weekendOvertimeHours r
    = countIf (λ wh, qualifies wh && onWeekend wh) workHours
  ∧ sumValues (overtimeByHour r) = countIf qualifies workHours
  ∧ sumValues (dailyOvertime r)
    = countIf (λ wh, qualifies wh && inRange startDate endDate wh) workHours
  ∧ (∀ k, is_Some (dailyOvertime r !! k)
          ↔ ∃ d, Dayjs.dayNumber startDate ≤ d ≤ Dayjs.dayNumber endDate
                 ∧ k = dayKey d)
  ∧ sumValues (dailyOvertime r) ≤ totalOvertimeHours r
  ∧ ((∀ wh, wh ∈ workHours → qualifies wh = true →
            inRange startDate endDate wh = true) →
     sumValues (dailyOvertime r) = totalOvertimeHours r).
Proof.
  intros r. subst r. unfold calculateOvertimeStats.
  match goal with |- context [fold_left countOvertime workHours ?a] =>
    destruct (countOvertime_fold workHours a) as (F1 & F2 & F3 & F4 & F5)
  end.
  cbn [totalOvertimeHours weekdayOvertimeHours weekendOvertimeHours
       dailyOvertime overtimeByHour] in *.
  fold (initialized startDate endDate) in *.
  rewrite (sumValues_zero initByHour initByHour_zero) in F3.
  rewrite (sumValues_zero (initialized startDate endDate)) in F4.
  2:{ apply initDaily_zero. intros k v. by rewrite lookup_empty. }
  fold (inRange startDate endDate) in F4.
  split; [done|]. split; [lia|]. split; [lia|]. split; [lia|].
  split; [rewrite F4; unfold inRange; lia|].
  split; [intros k; by rewrite F5, initialized_keys|].
  split.
  - rewrite F4, F1. simpl.
    pose proof (countIf_le
      (λ wh, qualifies wh && bool_decide
               (is_Some (initialized startDate endDate !! date wh)))
      qualifies workHours) as Hle.
    etrans; [|etrans; [apply Hle|]]; [lia| |lia].
    intros x. by rewrite andb_true_iff; intros [? _].
  - intros Hall. rewrite F4, F1. simpl.
    rewrite (countIf_ext_in _ qualifies); [lia|].
    intros x Hx. destruct (qualifies x) eqn:Hq; [|done].
    specialize (Hall x Hx Hq). unfold inRange in Hall. by rewrite Hall.
Qed.

(** Two qualifying buckets, one on Saturday 2024-01-06 inside the range
    2024-01-01..2024-01-07 and one on Monday 2024-01-08 outside it: both are
    in the total, only the first in [dailyOvertime]. *)
Example overtime_out_of_range :
  let bucket d h :=
    {| id := 0; userId := 7; date := d; hour := h; hasActivity := true;
       codeChanges := 1; webActivities := 0; isOvertime := true |} in
  let r := calculateOvertimeStats
             [bucket "2024-01-06" 10; bucket "2024-01-08" 20]
             (Dayjs.mk 19723 0) (Dayjs.mk 19729 0) in
  totalOvertimeHours r = 2
  ∧ weekdayOvertimeHours r = 1 ∧ weekendOvertimeHours r = 1
  ∧ dailyOvertime r !! "2024-01-06" = Some 1
  ∧ dailyOvertime r !! "2024-01-08" = None
  ∧ sumValues (dailyOvertime r) = 1
  ∧ overtimeByHour r !! 20 = Some 1.
Proof. by vm_compute. Qed.

End Overtime.

(** ** The scanner: uncommitted changes *)

Section Uncommitted.
Import Scanner.
Variable hashString : string → string.

(** C1. When the working tree differs from HEAD (the stat text is not
    blank) and the fingerprint of that text is not the stored one, the
    reported counts are [max(0, current - previous)] for insertions,
    deletions and files, where [previous] is the stored snapshot or zeros; a
    record with [isCommitted = false] is returned exactly when the added or
    the deleted delta is not zero; and in both cases the stored fingerprint
    and the stored snapshot become the current fingerprint and the full
    current counts. *)
Theorem uncommitted_delta (git : Git.t) (repoPath : string)
    (state : ScannerState) (branch diffOutput : string)
    (summary : Git.DiffSummary) :
  Git.revparse git = Some branch →
  Git.diff git = Some diffOutput →
  Js.trim diffOutput ≠ EmptyString →
  lastDiffHashes state !! repoPath ≠ Some (hashString diffOutput) →
  Git.diffSummary git = Some summary →
  let previous :=
    default Stats.zero (lastUncommittedStats state !! repoPath) in
  let current :=
    Stats.mk (Git.insertions summary) (Git.deletions summary)
      (Z.of_nat (length (Git.files summary))) in
  let added := Z.max 0 (Git.insertions summary - Stats.linesAdded previous) in
  let deleted :=
    Z.max 0 (Git.deletions summary - Stats.linesDeleted previous) in
  let nfiles :=
    Z.max 0 (Z.of_nat (length (Git.files summary))
             - Stats.filesChanged previous) in
  getUncommittedChanges hashString git repoPath state
  = (if bool_decide (added ≠ 0 ∨ deleted ≠ 0)
     then Some {| _repoPath := repoPath;
                  change :=
                    {| repoName := Path.basename repoPath;
                       branch := Js.trim branch;
                       linesAdded := added;
                       linesDeleted := deleted;
                       filesChanged := nfiles;
                       isCommitted := false;
                       commitHash := None |} |}
     else None,
     {| lastCommitHashes := lastCommitHashes state;
        lastDiffHashes :=
          <[repoPath := hashString diffOutput]> (lastDiffHashes state);
        lastUncommittedStats :=
          <[repoPath := current]> (lastUncommittedStats state) |}).
Proof.
  intros Hb Hd Hne Hfp Hs. simpl. unfold getUncommittedChanges.
  rewrite Hb, Hd, Hs.
  rewrite decide_False by done.
  rewrite decide_False by (intros E; by rewrite <- E in Hfp).
  cbn [Stats.linesAdded Stats.linesDeleted Stats.filesChanged].
  set (a := Z.max 0 (Git.insertions summary - _)).
  set (d := Z.max 0 (Git.deletions summary - _)).
  destruct (decide (a ≠ 0 ∨ d ≠ 0)) as [Hnz|Hz].
  - rewrite bool_decide_eq_true_2 by done.
    destruct (a =? 0) eqn:Ea, (d =? 0) eqn:Ed; simpl; try done.
    apply Z.eqb_eq in Ea, Ed. lia.
  - rewrite bool_decide_eq_false_2 by done.
    assert (a = 0 ∧ d = 0) as [-> ->] by lia. done.
Qed.

End Uncommitted.

(** The scenario of the specification, with the text itself as its
    fingerprint: the diff grows from +10/-2 to +15/-2, then shrinks to
    +15/-1. *)
Definition scenarioTree (stat : string) (ins del : Z) : Git.t :=
  {| Git.headBranch := Some "main"; Git.head := None; Git.history := [];
     Git.logWorks := true;
     Git.showStat := λ _, None; Git.diffStat := Some stat;
     Git.diffSummaryHead :=
       Some {| Git.insertions := ins; Git.deletions := del;
               Git.files := ["a.ts"] |} |}.

Definition scenarioState (stat : string) (ins del : Z)
    : Scanner.ScannerState :=
  {| Scanner.lastCommitHashes := ∅;
     Scanner.lastDiffHashes := {["/w/app" := stat]};
     Scanner.lastUncommittedStats := {["/w/app" := Scanner.Stats.mk ins del 1]} |}.

Lemma uncommitted_delta_witness :
  Scanner.getUncommittedChanges id (scenarioTree "a.ts | 17" 15 2) "/w/app"
    (scenarioState "a.ts | 12" 10 2)
  = (Some {| Scanner._repoPath := "/w/app";
             Scanner.change :=
               {| Scanner.repoName := "app"; Scanner.branch := "main";
                  Scanner.linesAdded := 5; Scanner.linesDeleted := 0;
                  Scanner.filesChanged := 0; Scanner.isCommitted := false;
                  Scanner.commitHash := None |} |},
     scenarioState "a.ts | 17" 15 2).
Proof.
  rewrite (uncommitted_delta id (scenarioTree "a.ts | 17" 15 2) "/w/app"
             (scenarioState "a.ts | 12" 10 2) "main" "a.ts | 17"
             {| Git.insertions := 15; Git.deletions := 2;
                Git.files := ["a.ts"] |});
    [by vm_compute|done|done|by vm_compute|by vm_compute|done].
Defined.

Example uncommitted_scenario :
  Scanner.getUncommittedChanges id (scenarioTree "a.ts | 12" 10 2) "/w/app"
    {| Scanner.lastCommitHashes := ∅; Scanner.lastDiffHashes := ∅;
       Scanner.lastUncommittedStats := ∅ |}
  = (Some {| Scanner._repoPath := "/w/app";
             Scanner.change :=
               {| Scanner.repoName := "app"; Scanner.branch := "main";
                  Scanner.linesAdded := 10; Scanner.linesDeleted := 2;
                  Scanner.filesChanged := 1; Scanner.isCommitted := false;
                  Scanner.commitHash := None |} |},
     scenarioState "a.ts | 12" 10 2)
  ∧ Scanner.getUncommittedChanges id (scenarioTree "a.ts | 16" 15 1) "/w/app"
      (scenarioState "a.ts | 17" 15 2)
    = (None, scenarioState "a.ts | 16" 15 1)
  ∧ Scanner.getUncommittedChanges id (scenarioTree "a.ts | 16" 15 1) "/w/app"
      (scenarioState "a.ts | 16" 15 1)
    = (None, scenarioState "a.ts | 16" 15 1).
Proof. by vm_compute. Qed.

(** ** The scanner: the persisted state *)

Section LoadState.
Import Scanner.

Lemma orEmptyObject_cases x :
  orEmptyObject x = JObj []
  ∨ ∃ v, x = Some v ∧ truthy v = true ∧ orEmptyObject x = v.
Proof.
  destruct x as [v|]; simpl; [|by left].
  destruct (truthy v) eqn:Hv; [right; eauto|by left].
Qed.

(** C8, as the code has it. [loadState] is total (it never throws) and
    always returns the three fields. They are three empty maps when the
    file is absent, unreadable, unparseable or holds [null]. Otherwise each
    field that is missing (or falsy) is an empty map and each field that is
    present with a truthy value is returned as stored, so the three fields
    are maps whenever the stored ones are. *)
Theorem loadState_total (file : StateFile) :
  (file = FileAbsent ∨ file = FileUnreadable ∨ file = FileContent None
   ∨ file = FileContent (Some JNull) →
   loadState file = emptyLoadedState)
  ∧ (∀ parsed, file = FileContent (Some parsed) → parsed ≠ JNull →
       let field k := default None (getProp parsed k) in
       loadState file
       = {| loadedCommitHashes := orEmptyObject (field "lastCommitHashes");
            loadedDiffHashes := orEmptyObject (field "lastDiffHashes");
            loadedUncommittedStats :=
              orEmptyObject (field "lastUncommittedStats") |}
       ∧ (∀ k, field k = None → orEmptyObject (field k) = JObj [])
       ∧ ((∀ k v, field k = Some v → truthy v = true → isMap v = true) →
          isMap (loadedCommitHashes (loadState file)) = true
          ∧ isMap (loadedDiffHashes (loadState file)) = true
          ∧ isMap (loadedUncommittedStats (loadState file)) = true)).
Proof.
  split.
  - intros [->|[->|[->| ->]]]; done.
  - intros parsed -> Hnull field.
    assert (Hload : loadState (FileContent (Some parsed))
      = {| loadedCommitHashes := orEmptyObject (field "lastCommitHashes");
           loadedDiffHashes := orEmptyObject (field "lastDiffHashes");
           loadedUncommittedStats :=
             orEmptyObject (field "lastUncommittedStats") |}).
    { subst field. by destruct parsed. }
    split; [done|]. split; [by intros k ->|].
    intros Hmaps. rewrite Hload.
    cbn [loadedCommitHashes loadedDiffHashes loadedUncommittedStats].
    assert (Hone : ∀ k, isMap (orEmptyObject (field k)) = true).
    { intros k. destruct (orEmptyObject_cases (field k))
        as [->|(v & Hk & Hv & ->)]; [done|by apply (Hmaps k)]. }
    auto.
Qed.

(** A state file written by an older version, with one field only. *)
Lemma loadState_total_witness :
  loadState (FileContent (Some (JObj [("lastCommitHashes",
                                       JObj [("/w/app", JStr "c0ffee")])])))
  = {| loadedCommitHashes := JObj [("/w/app", JStr "c0ffee")];
       loadedDiffHashes := JObj [];
       loadedUncommittedStats := JObj [] |}.
Proof.
  destruct (loadState_total
              (FileContent (Some (JObj [("lastCommitHashes",
                                         JObj [("/w/app", JStr "c0ffee")])]))))
    as [_ H].
  destruct (H _ eq_refl) as [E _]; [done|exact E].
Defined.

(** C8, as the claim has it: "always returns all three maps". The code
    checks no type: a state file holding [{"lastCommitHashes": 5}] is loaded
    with the number 5 in the place of the first map. *)
Lemma loadState_not_always_maps :
  let file := FileContent (Some (JObj [("lastCommitHashes", JNum 5)])) in
  loadedCommitHashes (loadState file) = JNum 5
  ∧ isMap (loadedCommitHashes (loadState file)) = false
  ∧ ¬ (∀ file,
         isMap (loadedCommitHashes (loadState file)) = true
         ∧ isMap (loadedDiffHashes (loadState file)) = true
         ∧ isMap (loadedUncommittedStats (loadState file)) = true).
Proof.
  intros file. split; [done|]. split; [done|].
  intros H. destruct (H file) as [H1 _]. vm_compute in H1. discriminate.
Qed.

End LoadState.

(** ** The scanner: new commits *)

Section Commits.
Import Scanner.

(** [git show] succeeded for the commit. *)
Definition shown (git : Git.t) (c : Git.Commit) : bool :=
  bool_decide (is_Some (Git.show git (Git.hash c))).

(** The record the loop pushes for a commit, if any. *)
Definition recordOf (git : Git.t) (repoPath branch : string)
    (c : Git.Commit) : option InternalRepoChange :=
  show ← Git.show git (Git.hash c);
  let stats := parseGitStats show in
  if 0 <? Stats.filesChanged stats then
    Some {| _repoPath := repoPath;
            change :=
              {| repoName := Path.basename repoPath;
                 branch := Js.trim branch;
                 linesAdded := Stats.linesAdded stats;
                 linesDeleted := Stats.linesDeleted stats;
                 filesChanged := Stats.filesChanged stats;
                 isCommitted := true;
                 commitHash := Some (Git.hash c) |} |}
  else None.

(** The stored hash after the loop went over [commits]: that of the last
    one [git show] succeeded for, else what it was. *)
Definition advance (git : Git.t) (cursor : option string)
    (commits : list Git.Commit) : option string :=
  fold_left (λ cur c, if shown git c then Some (Git.hash c) else cur)
    commits cursor.

Definition setCursor (state : ScannerState) (repoPath : string)
    (cursor : option string) : ScannerState :=
  match cursor with
  | Some h => withCommitHash state repoPath h
  | None => state
  end.

Lemma withCommitHash_setCursor state repoPath cursor h :
  withCommitHash (setCursor state repoPath cursor) repoPath h
  = withCommitHash state repoPath h.
Proof.
  destruct cursor as [h0|]; [|done]. unfold withCommitHash. simpl.
  by rewrite insert_insert_eq.
Qed.

Lemma processCommit_step git repoPath branch changes state c :
  processCommit git repoPath branch (changes, state) c
  = (changes ++ option_list (recordOf git repoPath branch c),
     if shown git c then withCommitHash state repoPath (Git.hash c)
     else state).
Proof.
  unfold processCommit, recordOf, shown.
  destruct (Git.show git (Git.hash c)) as [out|]; simpl.
  - destruct (0 <? Stats.filesChanged (parseGitStats out)); simpl; [done|].
    by rewrite app_nil_r.
  - by rewrite app_nil_r.
Qed.

Lemma omap_cons_list {A B} (f : A → option B) x l :
  omap f (x :: l) = option_list (f x) ++ omap f l.
Proof. simpl. by destruct (f x). Qed.

Lemma processCommit_fold git repoPath branch commits changes state cursor :
  fold_left (processCommit git repoPath branch) commits
    (changes, setCursor state repoPath cursor)
  = (changes ++ omap (recordOf git repoPath branch) commits,
     setCursor state repoPath (advance git cursor commits)).
Proof.
  revert changes cursor.
  induction commits as [|c cs IH]; intros changes cursor.
  - simpl. by rewrite app_nil_r.
  - cbn [fold_left]. rewrite processCommit_step, omap_cons_list, app_assoc.
    change (advance git cursor (c :: cs))
      with (advance git (if shown git c then Some (Git.hash c) else cursor)
              cs).
    rewrite <- IH. do 2 f_equal.
    destruct (shown git c); [|done].
    apply withCommitHash_setCursor.
Qed.

Lemma advance_app git cursor l1 l2 :
  advance git cursor (l1 ++ l2) = advance git (advance git cursor l1) l2.
Proof. unfold advance. by rewrite fold_left_app. Qed.

Lemma advance_unshown git cursor commits :
  (∀ c, c ∈ commits → shown git c = false) →
  advance git cursor commits = cursor.
Proof.
  revert cursor. induction commits as [|c cs IH]; intros cursor Hall;
    [done|].
  unfold advance. simpl. rewrite (Hall c) by apply list_elem_of_here.
  apply IH. intros c' Hc'. apply Hall. by apply list_elem_of_further.
Qed.

Lemma omap_recordOf_unshown git repoPath branch commits :
  (∀ c, c ∈ commits → shown git c = false) →
  omap (recordOf git repoPath branch) commits = [].
Proof.
  induction commits as [|c cs IH]; intros Hall; [done|]. simpl.
  pose proof (Hall c (list_elem_of_here _ _)) as Hc.
  unfold shown in Hc. apply bool_decide_eq_false in Hc.
  unfold recordOf at 1.
  destruct (Git.show git (Git.hash c)); [exfalso; eauto|]. simpl.
  apply IH. intros c' Hc'. apply Hall. by apply list_elem_of_further.
Qed.

(** The hash the loop leaves is that of the newest commit it could show. *)
Lemma advance_last git cursor commits :
  advance git cursor commits
  = match last (filter (λ c, shown git c = true) commits) with
    | Some c => Some (Git.hash c)
    | None => cursor
    end.
Proof.
  induction commits as [|c cs IH] using rev_ind; [done|].
  rewrite advance_app, filter_app, IH. unfold advance at 1. simpl.
  rewrite filter_cons, filter_nil.
  destruct (shown git c) eqn:Hc; case_decide; try done.
  - by rewrite last_snoc.
  - by rewrite app_nil_r.
Qed.


(** What [getNewCommits] computes once the branch and the log are there. *)
Lemma getNewCommits_unfold git repoPath state now branch all :
  Git.revparse git = Some branch →
  Git.log git (chooseLogOptions git (lastCommitHashes state !! repoPath) now)
  = Some all →
  getNewCommits git repoPath state now
  = (omap (recordOf git repoPath branch) (reverse all),
     setCursor state repoPath (advance git None (reverse all))).
Proof.
  intros Hb Hl. unfold getNewCommits. rewrite Hb, Hl.
  by rewrite (processCommit_fold git repoPath branch _ [] state None).
Qed.

End Commits.

(** ** git: the revision walk and the log *)

Section Revisions.

Lemma walk_elem_of keep W l c : c ∈ Git.walk keep W l → c ∈ l.
Proof.
  revert W. induction l as [|x l IH]; intros W; simpl; [done|].
  destruct (decide _); [destruct (keep x)|]; rewrite ?elem_of_cons;
    intros Hc; try destruct Hc as [->|Hc]; eauto.
Qed.

Lemma walk_keep keep W l c : c ∈ Git.walk keep W l → keep c = true.
Proof.
  revert W. induction l as [|x l IH]; intros W; simpl;
    [by intros ?%elem_of_nil|].
  destruct (decide _); [destruct (keep x) eqn:Ek|]; rewrite ?elem_of_cons;
    intros Hc; try destruct Hc as [->|Hc]; eauto.
Qed.

(** Wanting more and keeping (λ _, true) shows at least as much. *)
Lemma walk_mono keep W W' l c :
  W ⊆ W' → c ∈ Git.walk keep W l → c ∈ Git.walk (λ _, true) W' l.
Proof.
  revert W W'. induction l as [|x l IH]; intros W W' Hsub; simpl; [done|].
  destruct (decide (Git.hash x ∈ W)) as [Hx|Hx].
  - rewrite decide_True by by apply Hsub.
    destruct (keep x).
    + rewrite !elem_of_cons. intros [->|Hc]; [by left|right].
      apply (IH (W ∪ list_to_set (Git.parents x))); [|done].
      by apply union_mono_r.
    + intros Hc. apply list_elem_of_further. apply (IH W); [|done].
      by apply union_subseteq_l'.
  - intros Hc. case_decide.
    + apply list_elem_of_further. apply (IH W); [|done].
      by apply union_subseteq_l'.
    + by apply (IH W).
Qed.







Lemma log_elem_of git o all c :
  Git.log git o = Some all → c ∈ all → c ∈ Git.history git.
Proof.
  unfold Git.log. destruct (Git.logWorks git); [|done].
  destruct (Git.head git) as [tip|]; [|done]. simpl.
  destruct o as [h|d].
  - destruct (Git.showQuiet git h); [|done]. simpl.
    intros [= <-] Hc. by apply list_elem_of_filter in Hc as [_ ?].
  - intros [= <-]. apply walk_elem_of.
Qed.


End Revisions.

Section NewCommits.
Import Scanner.

(** The line [parseGitStats] applies its regular expression to. *)
Definition summaryLine (output : string) : string :=
  default EmptyString (last (Js.split "010" (Js.trim output))).

Lemma parseGitStats_unmatched output :
  matchStats (summaryLine output) = None → parseGitStats output = Stats.zero.
Proof. unfold parseGitStats, summaryLine. by intros ->. Qed.

Lemma recordOf_Some git repoPath branch c r :
  recordOf git repoPath branch c = Some r →
  ∃ out, Git.show git (Git.hash c) = Some out
         ∧ 0 < Stats.filesChanged (parseGitStats out)
         ∧ r = {| _repoPath := repoPath;
                  change :=
                    {| repoName := Path.basename repoPath;
                       branch := Js.trim branch;
                       linesAdded := Stats.linesAdded (parseGitStats out);
                       linesDeleted := Stats.linesDeleted (parseGitStats out);
                       filesChanged := Stats.filesChanged (parseGitStats out);
                       isCommitted := true;
                       commitHash := Some (Git.hash c) |} |}.
Proof.
  unfold recordOf. destruct (Git.show git (Git.hash c)) as [out|]; [|done].
  simpl. destruct (0 <? _) eqn:Hpos; [|done].
  intros [= <-]. exists out. apply Z.ltb_lt in Hpos. done.
Qed.

(** C7. A commit whose stat reports no changed file, or whose stat the
    parser cannot match (read as all zeros), pushes no record, and the
    stored hash of the repository still moves to that commit. In a whole
    [getNewCommits], no returned record carries that commit's hash, and if
    the commit is the newest of the log its hash is the one left stored. *)
Theorem empty_commit_advances_cursor (git : Git.t)
    (repoPath branch : string) (commit : Git.Commit) (output : string) :
  Git.show git (Git.hash commit) = Some output →
  matchStats (summaryLine output) = None
  ∨ Stats.filesChanged (parseGitStats output) = 0 →
  (∀ changes state,
     processCommit git repoPath branch (changes, state) commit
     = (changes, withCommitHash state repoPath (Git.hash commit))
     ∧ lastCommitHashes
         (snd (processCommit git repoPath branch (changes, state) commit))
       !! repoPath = Some (Git.hash commit))
  ∧ (∀ state now all,
       Git.revparse git = Some branch →
       Git.log git
         (chooseLogOptions git (lastCommitHashes state !! repoPath) now)
       = Some all →
       (∀ r, r ∈ (getNewCommits git repoPath state now).1 →
             commitHash (change r) ≠ Some (Git.hash commit))
       ∧ (head all = Some commit →
          lastCommitHashes (getNewCommits git repoPath state now).2
            !! repoPath = Some (Git.hash commit))).
Proof.
  intros Hshow Hzero.
  assert (Hfiles : Stats.filesChanged (parseGitStats output) = 0).
  { destruct Hzero as [Hno|?]; [|done].
    by rewrite (parseGitStats_unmatched _ Hno). }
  assert (Hshown : shown git commit = true).
  { unfold shown. apply bool_decide_eq_true. rewrite Hshow. eauto. }
  assert (Hrec : recordOf git repoPath branch commit = None).
  { unfold recordOf. rewrite Hshow. simpl. by rewrite Hfiles. }
  split.
  - intros changes state. rewrite processCommit_step, Hrec, Hshown. simpl.
    rewrite app_nil_r. split; [done|]. apply lookup_insert_eq.
  - intros state now all Hb Hl.
    rewrite (getNewCommits_unfold git repoPath state now branch all Hb Hl).
    simpl. split.
    + intros r Hr. apply list_elem_of_omap in Hr as (c & _ & Hc).
      apply recordOf_Some in Hc as (out & Hout & Hpos & ->). simpl.
      intros [= Heq]. rewrite Heq, Hshow in Hout.
      injection Hout as <-. lia.
    + destruct all as [|c rest]; intros [= ->].
      rewrite reverse_cons, advance_app. unfold advance at 1. simpl.
      rewrite Hshown. simpl. apply lookup_insert_eq.
Qed.

(** An empty merge commit [M] on top of [A]: no record, and the stored hash
    moves from [A] to [M]. *)
Definition mergeRepo : Git.t :=
  {| Git.headBranch := Some "main";
     Git.head := Some "M";
     Git.history := [Git.mkCommit "M" 2 ["A"]; Git.mkCommit "A" 1 []];
     Git.logWorks := true;
     Git.showStat := λ h, if decide (h = "M") then Some "" else None;
     Git.diffStat := Some ""; Git.diffSummaryHead := None |}.

Lemma empty_commit_advances_cursor_witness :
  let state := {| lastCommitHashes := {["/w/app" := "A"]};
                  lastDiffHashes := ∅; lastUncommittedStats := ∅ |} in
  getNewCommits mergeRepo "/w/app" state 5000
  = ([], {| lastCommitHashes := {["/w/app" := "M"]};
            lastDiffHashes := ∅; lastUncommittedStats := ∅ |})
  ∧ processCommit mergeRepo "/w/app" "main" ([], state)
      (Git.mkCommit "M" 2 ["A"])
    = ([], withCommitHash state "/w/app" "M").
Proof.
  intros state. split; [by vm_compute|].
  apply (empty_commit_advances_cursor mergeRepo "/w/app" "main"
           (Git.mkCommit "M" 2 ["A"]) "" eq_refl).
  left. by vm_compute.
Defined.



End NewCommits.

Section NewCommitsScenario.
Import Scanner.

(** The scenario of the specification: commits [A], [B], [C], of which only
    [A] was seen. *)
Definition abcRepo : Git.t :=
  {| Git.headBranch := Some "main";
     Git.head := Some "C";
     Git.history := [Git.mkCommit "C" 3 ["B"]; Git.mkCommit "B" 2 ["A"];
                     Git.mkCommit "A" 1 []];
     Git.logWorks := true;
     Git.showStat := λ h,
       if decide (h = "B") then Some " 1 file changed, 2 insertions(+)"
       else if decide (h = "C")
       then Some " 2 files changed, 1 insertion(+), 1 deletion(-)"
       else None;
     Git.diffStat := Some ""; Git.diffSummaryHead := None |}.

Definition seenA : ScannerState :=
  {| lastCommitHashes := {["/w/app" := "A"]}; lastDiffHashes := ∅;
     lastUncommittedStats := ∅ |}.


Example new_commits_scenario :
  getNewCommits abcRepo "/w/app" seenA 5000
  = ([ {| _repoPath := "/w/app";
          change := {| repoName := "app"; branch := "main"; linesAdded := 2;
                       linesDeleted := 0; filesChanged := 1;
                       isCommitted := true; commitHash := Some "B" |} |};
       {| _repoPath := "/w/app";
          change := {| repoName := "app"; branch := "main"; linesAdded := 1;
                       linesDeleted := 1; filesChanged := 2;
                       isCommitted := true; commitHash := Some "C" |} |} ],
     {| lastCommitHashes := {["/w/app" := "C"]}; lastDiffHashes := ∅;
        lastUncommittedStats := ∅ |}).
Proof. by vm_compute. Qed.




End NewCommitsScenario.

(** ** The scanner: what leaves the machine *)

Section Privacy.
Import Scanner.
Variable hashString : string → string.

Fixpoint hasSlash (s : string) : bool :=
  match s with
  | EmptyString => false
  | String c s' => Path.isSlash c || hasSlash s'
  end.

Lemma hasSlash_rev_app s1 s2 :
  hasSlash (String.rev_app s1 s2) = hasSlash s1 || hasSlash s2.
Proof.
  revert s2. induction s1 as [|c s1 IH]; intros s2; simpl; [done|].
  rewrite IH. simpl. destruct (Path.isSlash c), (hasSlash s1); done.
Qed.

Lemma hasSlash_untilSlash s : hasSlash (Path.untilSlash s) = false.
Proof.
  induction s as [|c s IH]; simpl; [done|].
  destruct (Path.isSlash c) eqn:Hc; simpl; [done|]. by rewrite Hc.
Qed.

Lemma basename_no_slash p : hasSlash (Path.basename p) = false.
Proof.
  unfold Path.basename, String.rev.
  by rewrite hasSlash_rev_app, hasSlash_untilSlash.
Qed.

(** The record names its repository by the base name of the path. *)
Definition namedByBasename (c : InternalRepoChange) : Prop :=
  repoName (change c) = Path.basename (_repoPath c).

Lemma getNewCommits_named git repoPath state now :
  Forall namedByBasename (getNewCommits git repoPath state now).1.
Proof.
  unfold getNewCommits.
  destruct (Git.revparse git) as [branch|]; [|by constructor].
  destruct (Git.log git _) as [all|]; [|by constructor].
  rewrite (processCommit_fold git repoPath branch _ [] state None).
  simpl. apply Forall_forall. intros r Hr.
  apply list_elem_of_omap in Hr as (c & _ & Hc).
  by apply recordOf_Some in Hc as (out & _ & _ & ->).
Qed.

Lemma getUncommittedChanges_named git repoPath state u :
  (getUncommittedChanges hashString git repoPath state).1 = Some u →
  namedByBasename u.
Proof.
  unfold getUncommittedChanges.
  repeat case_match; simpl; intros [= <-]; done.
Qed.

Lemma scanRepo_named w config now acc repoPath :
  Forall namedByBasename acc.1 →
  Forall namedByBasename (scanRepo hashString w config now acc repoPath).1.
Proof.
  destruct acc as [allChanges state]. simpl. intros Hacc.
  unfold scanRepo. destruct (isExcluded config repoPath); [done|].
  destruct (simpleGit w repoPath) as [git|]; [|done].
  pose proof (getNewCommits_named git repoPath state now) as Hc.
  destruct (getNewCommits git repoPath state now) as [commits state1].
  pose proof (getUncommittedChanges_named git repoPath state1) as Hu.
  destruct (getUncommittedChanges hashString git repoPath state1)
    as [[u|] state2]; simpl in *.
  - rewrite !Forall_app. split; [done|]. apply Forall_singleton. by apply Hu.
  - by rewrite Forall_app.
Qed.

Lemma fold_scanRepo_named w config now repos acc :
  Forall namedByBasename acc.1 →
  Forall namedByBasename
    (fold_left (scanRepo hashString w config now) repos acc).1.
Proof.
  revert acc. induction repos as [|p ps IH]; intros acc Hacc; [done|].
  simpl. by apply IH, scanRepo_named.
Qed.

Lemma scanPass_named w config now state :
  Forall namedByBasename (scanPass hashString w config now state).1.
Proof.
  unfold scanPass.
  assert (Hgen : ∀ paths acc, Forall namedByBasename acc.1 →
    Forall namedByBasename
      (fold_left (scanWatchPath hashString w config now) paths acc).1).
  { induction paths as [|p ps IH]; intros acc Hacc; [done|].
    simpl. apply IH. unfold scanWatchPath.
    destruct (pathKind w p); try done.
    destruct (findGitRepos w p); [|done].
    by apply fold_scanRepo_named. }
  apply Hgen. constructor.
Qed.

(** C9. The list [scanRepositories] returns is [allChanges] with
    [_repoPath] dropped from every element (the returned type has no such
    field). Each returned [repoName] is the base name of the path of the
    repository the record was made for; it has no path separator in it, so
    it is no absolute path. *)
Theorem scanRepositories_hides_paths (w : World) (config : AgentConfig)
    (now : Z) (state : ScannerState) :
  (scanRepositories hashString w config now state).1
  = change <$> (scanPass hashString w config now state).1
  ∧ (∀ c, c ∈ (scanPass hashString w config now state).1 →
          repoName (change c) = Path.basename (_repoPath c))
  ∧ (∀ r, r ∈ (scanRepositories hashString w config now state).1 →
          hasSlash (repoName r) = false
          ∧ ∀ absolute, hasSlash absolute = true → repoName r ≠ absolute).
Proof.
  pose proof (scanPass_named w config now state) as Hnamed.
  assert (Hout : (scanRepositories hashString w config now state).1
                 = change <$> (scanPass hashString w config now state).1).
  { unfold scanRepositories. by destruct (scanPass _ _ _ _ _). }
  split; [done|]. split.
  - intros c Hc. rewrite Forall_forall in Hnamed. by apply Hnamed.
  - intros r Hr. rewrite Hout in Hr.
    apply list_elem_of_fmap in Hr as (c & -> & Hc).
    rewrite Forall_forall in Hnamed. rewrite (Hnamed c Hc).
    split; [apply basename_no_slash|].
    intros absolute Habs Heq. rewrite <- Heq, basename_no_slash in Habs.
    done.
Qed.

End Privacy.

(** ** The scanner: a second pass over unchanged repositories *)

Section Idempotence.
Import Scanner.
Variable hashString : string → string.

(** What the state holds for one repository. *)
Definition view (state : ScannerState) (repoPath : string)
    : option string * option string * option Stats.t :=
  (lastCommitHashes state !! repoPath, lastDiffHashes state !! repoPath,
   lastUncommittedStats state !! repoPath).












Lemma getNewCommits_state git repoPath state now :
  ∃ cursor, (getNewCommits git repoPath state now).2
            = setCursor state repoPath cursor.
Proof.
  unfold getNewCommits.
  destruct (Git.revparse git) as [branch|]; [|by exists None].
  destruct (Git.log git _) as [all|]; [|by exists None].
  rewrite (processCommit_fold git repoPath branch _ [] state None).
  by eexists.
Qed.




Lemma getUncommittedChanges_commits git repoPath state :
  lastCommitHashes (getUncommittedChanges hashString git repoPath state).2
  = lastCommitHashes state.
Proof. unfold getUncommittedChanges. by repeat case_match. Qed.

Lemma getUncommittedChanges_frame git repoPath state other :
  other ≠ repoPath →
  view (getUncommittedChanges hashString git repoPath state).2 other
  = view state other.
Proof.
  intros Hne. unfold getUncommittedChanges, view.
  repeat case_match; simpl;
    rewrite ?lookup_delete_ne, ?lookup_insert_ne by done; done.
Qed.

Lemma getNewCommits_frame git repoPath state now other :
  other ≠ repoPath →
  view (getNewCommits git repoPath state now).2 other = view state other.
Proof.
  intros Hne. destruct (getNewCommits_state git repoPath state now)
    as [[h|] ->]; [|done].
  unfold view. simpl. by rewrite lookup_insert_ne.
Qed.

(** The state after the visit of one repository. *)
Definition visit (git : Git.t) (repoPath : string) (now : Z)
    (state : ScannerState) : ScannerState :=
  (getUncommittedChanges hashString git repoPath
     (getNewCommits git repoPath state now).2).2.




Lemma visit_frame git repoPath now state other :
  other ≠ repoPath →
  view (visit git repoPath now state) other = view state other.
Proof.
  intros Hne. unfold visit.
  by rewrite getUncommittedChanges_frame, getNewCommits_frame.
Qed.

Lemma scanRepo_state w config now acc repoPath :
  (scanRepo hashString w config now acc repoPath).2
  = if isExcluded config repoPath then acc.2
    else match simpleGit w repoPath with
         | Some git => visit git repoPath now acc.2
         | None => acc.2
         end.
Proof.
  destruct acc as [allChanges state]. unfold scanRepo, visit. simpl.
  destruct (isExcluded config repoPath); [done|].
  destruct (simpleGit w repoPath) as [git|]; [|done].
  destruct (getNewCommits git repoPath state now) as [commits state1].
  simpl. by destruct (getUncommittedChanges _ _ _ _) as [[u|] state2].
Qed.









(** The repositories a pass visits, in order. *)
Definition visited (w : World) (config : AgentConfig) : list string :=
  flat_map (λ watchPath,
              match pathKind w watchPath with
              | Directory => default [] (findGitRepos w watchPath)
              | _ => []
              end) (watchPaths config).

Lemma scanPass_visited w config now state :
  scanPass hashString w config now state
  = fold_left (scanRepo hashString w config now) (visited w config)
      ([], state).
Proof.
  unfold scanPass, visited. generalize (@nil InternalRepoChange, state).
  induction (watchPaths config) as [|p ps IH]; intros acc; [done|].
  simpl. rewrite fold_left_app, <- IH. f_equal.
  unfold scanWatchPath. destruct (pathKind w p); try done.
  by destruct (findGitRepos w p).
Qed.





End Idempotence.

(** One watch path with one repository: three commits inside the first-scan
    window, two of them with changes, and an uncommitted diff. The first
    pass reports three records, the second none. *)
Definition deskRepo : Git.t :=
  {| Git.headBranch := Some "main";
     Git.head := Some "C";
     Git.history := [Git.mkCommit "C" 3 ["B"]; Git.mkCommit "B" 2 ["A"];
                     Git.mkCommit "A" 1 []];
     Git.logWorks := true;
     Git.showStat := λ h,
       if decide (h = "B") then Some " 1 file changed, 2 insertions(+)"
       else if decide (h = "C")
       then Some " 2 files changed, 1 insertion(+), 1 deletion(-)"
       else Some "";
     Git.diffStat := Some " a.ts | 4 ++--";
     Git.diffSummaryHead :=
       Some {| Git.insertions := 2; Git.deletions := 2;
               Git.files := ["a.ts"] |} |}.

Definition deskWith (git : Git.t) : Scanner.World :=
  {| Scanner.pathKind := λ p,
       if decide (p = "/w") then Scanner.Directory else Scanner.Missing;
     Scanner.hasDotGit := λ _, false;
     Scanner.globGitDirs := λ _, Some ["/w/app/.git"];
     Scanner.simpleGit := λ p,
       if decide (p = "/w/app") then Some git else None |}.

Definition desk : Scanner.World := deskWith deskRepo.

Definition deskConfig : Scanner.AgentConfig :=
  {| Scanner.watchPaths := ["/w"; "/missing"];
     Scanner.excludePatterns := ["node_modules"] |}.

Definition neverScanned : Scanner.ScannerState :=
  {| Scanner.lastCommitHashes := ∅; Scanner.lastDiffHashes := ∅;
     Scanner.lastUncommittedStats := ∅ |}.


(** The same repository after [git reset --hard HEAD~1]: [C] is still in
    the object store, HEAD names [B]. *)
Definition resetRepo : Git.t :=
  {| Git.headBranch := Git.headBranch deskRepo;
     Git.head := Some "B";
     Git.history := Git.history deskRepo;
     Git.logWorks := true;
     Git.showStat := Git.showStat deskRepo;
     Git.diffStat := Some "";
     Git.diffSummaryHead := None |}.

Definition seenC : Scanner.ScannerState :=
  {| Scanner.lastCommitHashes := {["/w/app" := "C"]};
     Scanner.lastDiffHashes := ∅; Scanner.lastUncommittedStats := ∅ |}.








(** What the range [lastHash...] does with a stored hash that is off the
    branch: after the reset, with nothing else changed, every pass returns
    the record of [C] again and leaves [C] stored. *)
Example reset_commit_is_reported_again :
  ("C" ∉ Git.hash <$> Git.branch resetRepo)
  ∧ ∀ now,
      Scanner.getNewCommits resetRepo "/w/app" seenC now
      = ([ {| Scanner._repoPath := "/w/app";
              Scanner.change :=
                {| Scanner.repoName := "app"; Scanner.branch := "main";
                   Scanner.linesAdded := 1; Scanner.linesDeleted := 1;
                   Scanner.filesChanged := 2; Scanner.isCommitted := true;
                   Scanner.commitHash := Some "C" |} |} ],
         seenC).
Proof.
  split; [by refine (bool_decide_unpack _ _); vm_compute|].
  intros now. by vm_compute.
Qed.

(** * Further properties of the modelled code *)

(** ** calculateWorkTime *)

Section WorkTimeTotals.
Import Server.

Lemma calculateWorkTime_counts workHours :
  calculateWorkTime workHours
  = {| totalHours := countIf hasActivity workHours;
       normalHours :=
         countIf (λ h, hasActivity h && negb (isOvertime h)) workHours;
       overtimeHours :=
         countIf (λ h, hasActivity h && isOvertime h) workHours |}.
Proof.
  induction workHours as [|b rest IH]; [done|].
  rewrite calculateWorkTime_cons, IH. simpl.
  destruct (hasActivity b), (isOvertime b); simpl; f_equal; lia.
Qed.

Lemma countIf_app {A} (f : A → bool) l1 l2 :
  countIf f (l1 ++ l2) = countIf f l1 + countIf f l2.
Proof. induction l1 as [|x l1 IH]; simpl; [done|]. rewrite IH. lia. Qed.

Lemma countIf_Permutation {A} (f : A → bool) l1 l2 :
  l1 ≡ₚ l2 → countIf f l1 = countIf f l2.
Proof.
  induction 1 as [|x l1 l2 _ IH|x y l|l1 l2 l3 _ IH1 _ IH2]; simpl;
    [done|by rewrite IH|lia|congruence].
Qed.

Lemma countIf_length {A} (f : A → bool) l :
  countIf f l ≤ Z.of_nat (length l).
Proof. induction l as [|x l IH]; simpl; [done|]. destruct (f x); lia. Qed.

(** The three totals are consistent for every list of buckets: the total is
    the sum of the two parts, none is negative (although [normalHours] is
    computed by a subtraction), and the total counts the active buckets
    only, so it never exceeds the number of buckets. *)
Theorem calculateWorkTime_bounds (workHours : list WorkHour) :
  let r := calculateWorkTime workHours in
  totalHours r = normalHours r + overtimeHours r
  ∧ 0 ≤ normalHours r ∧ 0 ≤ overtimeHours r
  ∧ totalHours r = countIf hasActivity workHours
  ∧ totalHours r ≤ Z.of_nat (length workHours)
  ∧ (totalHours r = 0 ↔ ∀ h, h ∈ workHours → hasActivity h = false).
Proof.
  intros r. subst r. rewrite calculateWorkTime_counts. simpl.
  split.
  { induction workHours as [|b rest IH]; simpl; [done|].
    destruct (hasActivity b), (isOvertime b); simpl; lia. }
  split; [apply countIf_nonneg|]. split; [apply countIf_nonneg|].
  split; [done|]. split; [apply countIf_length|].
  induction workHours as [|b rest IH]; simpl.
  - split; [by intros _ ? ?%elem_of_nil|done].
  - pose proof (countIf_nonneg hasActivity rest). split.
    + intros Hz h [->|Hh]%elem_of_cons.
      * destruct (hasActivity b); [lia|done].
      * apply IH; [|done]. destruct (hasActivity b); lia.
    + intros Hall. rewrite (Hall b) by apply list_elem_of_here.
      apply IH. intros h Hh. apply Hall. by apply list_elem_of_further.
Qed.

(** The totals do not depend on the order in which the database returns
    the buckets, and the totals of two lists put together are the sums of
    their totals (a week is the sum of its days). *)
Theorem calculateWorkTime_additive (day1 day2 : list WorkHour) :
  (∀ reordered, day1 ≡ₚ reordered →
     calculateWorkTime reordered = calculateWorkTime day1)
  ∧ calculateWorkTime (day1 ++ day2)
    = {| totalHours := totalHours (calculateWorkTime day1)
                       + totalHours (calculateWorkTime day2);
         normalHours := normalHours (calculateWorkTime day1)
                        + normalHours (calculateWorkTime day2);
         overtimeHours := overtimeHours (calculateWorkTime day1)
                          + overtimeHours (calculateWorkTime day2) |}.
Proof.
  split.
  - intros reordered Hp. rewrite !calculateWorkTime_counts.
    by rewrite !(countIf_Permutation _ _ _ Hp).
  - rewrite !calculateWorkTime_counts. simpl. by rewrite !countIf_app.
Qed.

End WorkTimeTotals.

(** ** calculateOvertimeStats, key by key *)

Section OvertimeByKey.
Import Server.

Lemma countOvertime_byHour acc wh h :
  overtimeByHour (countOvertime acc wh) !! h
  = if qualifies wh && (hour wh =? h)
    then Some (default 0 (overtimeByHour acc !! h) + 1)
    else overtimeByHour acc !! h.
Proof.
  unfold countOvertime, qualifies.
  destruct (hasActivity wh), (isOvertime wh); simpl; try done.
  destruct (hour wh =? h) eqn:Hh.
  - apply Z.eqb_eq in Hh as ->. by rewrite lookup_insert_eq.
  - apply Z.eqb_neq in Hh. by rewrite lookup_insert_ne.
Qed.

Lemma countOvertime_daily acc wh k :
  dailyOvertime (countOvertime acc wh) !! k
  = if qualifies wh && bool_decide (date wh = k)
    then (λ n, n + 1) <$> dailyOvertime acc !! k
    else dailyOvertime acc !! k.
Proof.
  unfold countOvertime, qualifies.
  destruct (hasActivity wh), (isOvertime wh); simpl; try done.
  destruct (decide (date wh = k)) as [<-|Hne].
  - rewrite bool_decide_eq_true_2 by done.
    destruct (dailyOvertime acc !! date wh) as [n|] eqn:Hd; simpl.
    + by rewrite lookup_insert_eq.
    + by rewrite Hd.
  - rewrite bool_decide_eq_false_2 by done.
    destruct (dailyOvertime acc !! date wh); [|done].
    by rewrite lookup_insert_ne.
Qed.

Lemma fold_countOvertime_byHour workHours acc h :
  let n := countIf (λ wh, qualifies wh && (hour wh =? h)) workHours in
  overtimeByHour (fold_left countOvertime workHours acc) !! h
  = if decide (0 < n)
    then Some (default 0 (overtimeByHour acc !! h) + n)
    else overtimeByHour acc !! h.
Proof.
  revert acc. induction workHours as [|wh whs IH]; intros acc; simpl; [done|].
  pose proof (countIf_nonneg (λ wh, qualifies wh && (hour wh =? h)) whs).
  rewrite IH, countOvertime_byHour.
  destruct (qualifies wh && (hour wh =? h)); simpl;
    repeat case_decide; simpl; try lia; try done; f_equal; lia.
Qed.

Lemma fold_countOvertime_daily workHours acc k :
  dailyOvertime (fold_left countOvertime workHours acc) !! k
  = (λ n, n + countIf (λ wh, qualifies wh && bool_decide (date wh = k))
                workHours)
    <$> dailyOvertime acc !! k.
Proof.
  revert acc. induction workHours as [|wh whs IH]; intros acc; simpl.
  - destruct (dailyOvertime acc !! k); simpl; [f_equal; lia|done].
  - rewrite IH, countOvertime_daily.
    destruct (qualifies wh && bool_decide (date wh = k)); simpl.
    + destruct (dailyOvertime acc !! k); simpl; [f_equal; lia|done].
    + destruct (dailyOvertime acc !! k); simpl; [f_equal; lia|done].
Qed.

Lemma initByHour_lookup h :
  initByHour !! h = if decide (0 ≤ h < 24) then Some 0 else None.
Proof.
  unfold initByHour.
  assert (Hgen : ∀ l (m : gmap Z Z),
    fold_left (λ m h, <[h := 0]> m) l m !! h
    = if decide (h ∈ l) then Some 0 else m !! h).
  { induction l as [|x l IH]; intros m; cbn [fold_left].
    - rewrite decide_False; [done|]. by intros ?%elem_of_nil.
    - rewrite IH. destruct (decide (h ∈ l)) as [Hl|Hl].
      + rewrite decide_True; [done|]. by apply list_elem_of_further.
      + destruct (decide (x = h)) as [->|Hx].
        * rewrite lookup_insert_eq, decide_True; [done|].
          apply list_elem_of_here.
        * rewrite lookup_insert_ne by done. rewrite decide_False; [done|].
          intros [?|?]%elem_of_cons; congruence. }
  rewrite Hgen, lookup_empty.
  destruct (decide (0 ≤ h < 24)).
  - rewrite decide_True; [done|]. apply elem_of_seqZ. lia.
  - rewrite decide_False; [done|]. rewrite elem_of_seqZ. lia.
Qed.

(** [overtimeByHour] always has the 24 hours of the day, whatever the
    buckets; the value at an hour is the number of buckets with activity
    and overtime at that hour; an hour outside 0..23 gets an entry only when
    such a bucket exists. *)
Theorem overtimeByHour_exact (workHours : list WorkHour)
    (startDate endDate : Dayjs.t) (h : Z) :
  let r := calculateOvertimeStats workHours startDate endDate in
  let n := countIf (λ wh, qualifies wh && (hour wh =? h)) workHours in
  overtimeByHour r !! h
  = if decide (0 ≤ h < 24 ∨ 0 < n) then Some n else None.
Proof.
  intros r n. subst r. unfold calculateOvertimeStats.
  cbn [overtimeByHour]. rewrite fold_countOvertime_byHour.
  cbn [overtimeByHour]. fold n. rewrite initByHour_lookup.
  pose proof (countIf_nonneg (λ wh, qualifies wh && (hour wh =? h))
                workHours).
  fold n in H.
  repeat case_decide; simpl; try done; try lia; f_equal; lia.
Qed.

(** [dailyOvertime] has exactly the days from [startDate] to [endDate]; the
    value at a day is the number of buckets with activity and overtime whose
    date is that day; and when [endDate] is on an earlier day than
    [startDate] the record is empty. *)
Theorem dailyOvertime_exact (workHours : list WorkHour)
    (startDate endDate : Dayjs.t) :
  let r := calculateOvertimeStats workHours startDate endDate in
  (∀ d, Dayjs.dayNumber startDate ≤ d ≤ Dayjs.dayNumber endDate →
        dailyOvertime r !! dayKey d
        = Some (countIf (λ wh, qualifies wh
                               && bool_decide (date wh = dayKey d))
                  workHours))
  ∧ (∀ k, (∀ d, Dayjs.dayNumber startDate ≤ d ≤ Dayjs.dayNumber endDate →
                k ≠ dayKey d) →
          dailyOvertime r !! k = None)
  ∧ (Dayjs.dayNumber endDate < Dayjs.dayNumber startDate →
     dailyOvertime r = ∅).
Proof.
  intros r. subst r. unfold calculateOvertimeStats. cbn [dailyOvertime].
  fold (initialized startDate endDate).
  assert (Hzero : ∀ k v, initialized startDate endDate !! k = Some v → v = 0).
  { apply initDaily_zero. intros k v. by rewrite lookup_empty. }
  split; [|split].
  - intros d Hd. rewrite fold_countOvertime_daily. cbn [dailyOvertime].
    destruct (initialized startDate endDate !! dayKey d) as [v|] eqn:Hk.
    + rewrite (Hzero _ _ Hk). simpl. f_equal.
    + exfalso. assert (is_Some (initialized startDate endDate !! dayKey d))
        as [? ?] by (apply initialized_keys; eauto). congruence.
  - intros k Hk. rewrite fold_countOvertime_daily. cbn [dailyOvertime].
    destruct (initialized startDate endDate !! k) as [v|] eqn:Hv; [|done].
    exfalso. assert (is_Some (initialized startDate endDate !! k)) as Hs
      by eauto.
    apply initialized_keys in Hs as (d & Hd & ->). by apply (Hk d).
  - intros Hlt. apply map_eq. intros k. rewrite lookup_empty.
    rewrite fold_countOvertime_daily. cbn [dailyOvertime].
    destruct (initialized startDate endDate !! k) as [v|] eqn:Hv; [|done].
    exfalso. assert (is_Some (initialized startDate endDate !! k)) as Hs
      by eauto.
    apply initialized_keys in Hs as (d & Hd & _). lia.
Qed.

Lemma dailyOvertime_exact_example :
  let bucket d h :=
    {| id := 0; userId := 7; date := d; hour := h; hasActivity := true;
       codeChanges := 1; webActivities := 0; isOvertime := true |} in
  let r := calculateOvertimeStats
             [bucket "2024-01-06" 10; bucket "2024-01-06" 11;
              bucket "2024-01-08" 20]
             (Dayjs.mk 19723 0) (Dayjs.mk 19729 0) in
  dailyOvertime r !! "2024-01-06" = Some 2
  ∧ dailyOvertime r !! "2024-01-07" = Some 0
  ∧ calculateOvertimeStats [bucket "2024-01-06" 10]
      (Dayjs.mk 19729 0) (Dayjs.mk 19723 0)
    = {| totalOvertimeHours := 1; weekdayOvertimeHours := 0;
         weekendOvertimeHours := 1; dailyOvertime := ∅;
         overtimeByHour := <[10 := 1]> initByHour |}.
Proof. by vm_compute. Qed.

End OvertimeByKey.

(** ** updateWorkHour over a sequence of reports *)

Section Accumulation.
Import Server.

(** The bucket a report goes to. *)
Definition bucketKey (user : Z) (recordedAt : Dayjs.t) : Z * string * Z :=
  (user, Dayjs.format recordedAt, Dayjs.hour recordedAt).

(** The count a request adds to the counter of kind [type] of bucket [k]. *)
Definition reported (k : Z * string * Z) (type : ActivityType) (r : Request)
    : Z :=
  match r with
  | Track u t ty n =>
      if decide (bucketKey u t = k ∧ ty = type) then n else 0
  | Configure _ _ => 0
  end.

Definition touches (k : Z * string * Z) (r : Request) : bool :=
  match r with
  | Track u t _ _ => bool_decide (bucketKey u t = k)
  | Configure _ _ => false
  end.

Fixpoint sumOf {A} (f : A → Z) (l : list A) : Z :=
  match l with
  | [] => 0
  | x :: l' => f x + sumOf f l'
  end.

Definition codeOf (row : option WorkHour) : Z :=
  default 0 (codeChanges <$> row).
Definition webOf (row : option WorkHour) : Z :=
  default 0 (webActivities <$> row).

Lemma reported_hit u t ty n type :
  reported (bucketKey u t) type (Track u t ty n)
  = if decide (ty = type) then n else 0.
Proof.
  unfold reported. destruct (decide (ty = type)) as [->|Hne].
  - by rewrite decide_True.
  - rewrite decide_False; [done|]. by intros [_ ?].
Qed.

Lemma reported_miss u t ty n type k :
  bucketKey u t ≠ k → reported k type (Track u t ty n) = 0.
Proof.
  intros Hne. unfold reported. rewrite decide_False; [done|].
  by intros [? _].
Qed.

Lemma handle_accumulates db r k :
  let before := workHour db !! k in
  let after := workHour (handle db r) !! k in
  codeOf after = codeOf before + reported k code r
  ∧ webOf after = webOf before + reported k web r
  ∧ (is_Some after ↔ is_Some before ∨ touches k r = true)
  ∧ (touches k r = false → after = before).
Proof.
  cbv zeta. destruct r as [u t ty n|u c]; cbn [handle touches].
  2:{ simpl. split; [lia|]. split; [lia|]. split; [|done].
      split; [auto|]. by intros [?|?]. }
  unfold updateWorkHour. fold (bucketKey u t).
  destruct (decide (bucketKey u t = k)) as [<-|Hne].
  - rewrite bool_decide_eq_true_2 by done. rewrite !reported_hit.
    destruct (workHour db !! bucketKey u t) as [existing|] eqn:Hex; simpl;
      rewrite lookup_insert_eq; unfold codeOf, webOf; simpl.
    + destruct ty; simpl; (split; [lia|]); (split; [lia|]);
        (split; [|done]); split; eauto.
    + destruct ty; simpl; (split; [lia|]); (split; [lia|]);
        (split; [|done]); split; eauto.
  - rewrite bool_decide_eq_false_2 by done.
    rewrite !reported_miss by done.
    assert (Hsame : ∀ row,
      (<[bucketKey u t := row]> (workHour db)) !! k = workHour db !! k)
      by (intros; by rewrite lookup_insert_ne).
    destruct (workHour db !! bucketKey u t); simpl; rewrite Hsame;
      (split; [lia|]); (split; [lia|]); (split; [|done]);
      (split; [auto|]); by intros [?|?].
Qed.

(** Every count reported for a bucket is in its counter: after any sequence
    of activity reports and configuration changes, [codeChanges] and
    [webActivities] of a bucket are what they were (0 for a bucket that did
    not exist) plus the counts of the reports of that kind that fell in its
    user, date and hour. The bucket exists afterwards exactly when it
    existed or a report fell in it, and a bucket no report fell in is
    untouched. *)
Theorem updateWorkHour_accumulates (requests : list Request) (db : Database)
    (k : Z * string * Z) :
  let before := workHour db !! k in
  let after := workHour (serve requests db) !! k in
  codeOf after = codeOf before + sumOf (reported k code) requests
  ∧ webOf after = webOf before + sumOf (reported k web) requests
  ∧ (is_Some after
     ↔ is_Some before ∨ ∃ r, r ∈ requests ∧ touches k r = true)
  ∧ ((∀ r, r ∈ requests → touches k r = false) → after = before).
Proof.
  revert db. unfold serve.
  induction requests as [|r rs IH]; intros db; simpl.
  - split; [lia|]. split; [lia|]. split; [|done].
    split; [auto|]. intros [?|(r & ?%elem_of_nil & _)]; done.
  - destruct (handle_accumulates db r k) as (H1 & H2 & H3 & H4).
    destruct (IH (handle db r)) as (I1 & I2 & I3 & I4).
    simpl in *. split; [lia|]. split; [lia|]. split.
    + rewrite I3, H3. split.
      * intros [[?|?]|(r' & ? & ?)]; [by left|right..].
        -- exists r. split; [apply list_elem_of_here|done].
        -- exists r'. split; [by apply list_elem_of_further|done].
      * intros [?|(r' & [->|?]%elem_of_cons & ?)]; [by left; left|..].
        -- by left; right.
        -- right. eauto.
    + intros Hnone. rewrite I4.
      * apply H4, Hnone, list_elem_of_here.
      * intros r' Hr'. by apply Hnone, list_elem_of_further.
Qed.

(** Every row is stored under its own user, date and hour, and is marked
    active. *)
Definition tidy (db : Database) : Prop :=
  ∀ k row, workHour db !! k = Some row →
           k = (userId row, date row, hour row) ∧ hasActivity row = true.

Lemma handle_tidy db r : tidy db → tidy (handle db r).
Proof.
  intros Ht. destruct r as [u t ty n|u c]; [|exact Ht].
  simpl. unfold updateWorkHour. fold (bucketKey u t).
  destruct (workHour db !! bucketKey u t) as [existing|] eqn:Hex;
    intros k row; simpl; rewrite lookup_insert_Some;
    (intros [[<- <-]|[_ Hrow]]; [|by apply Ht]); simpl.
  - by destruct (Ht _ _ Hex) as [-> _].
  - done.
Qed.

(** A table filled through [updateWorkHour] alone keeps every bucket under
    the key made of its own fields and marked active, so that
    [calculateWorkTime] over the whole table counts every bucket: the total
    is the number of rows. *)
Theorem updateWorkHour_keeps_table_tidy (requests : list Request)
    (db : Database) :
  tidy db →
  tidy (serve requests db)
  ∧ totalHours (calculateWorkTime (map_to_list (workHour (serve requests db))).*2)
    = Z.of_nat (size (workHour (serve requests db))).
Proof.
  intros Ht.
  assert (Ht' : tidy (serve requests db)).
  { revert db Ht. unfold serve.
    induction requests as [|r rs IH]; intros db Ht; [done|].
    simpl. by apply IH, handle_tidy. }
  split; [done|].
  rewrite calculateWorkTime_counts. simpl.
  rewrite <- length_map_to_list.
  assert (Hgen : ∀ l : list (Z * string * Z * WorkHour),
    (∀ kr, kr ∈ l → hasActivity kr.2 = true) →
    countIf hasActivity l.*2 = Z.of_nat (length l)).
  { induction l as [|[k row] l IH]; intros Hl; [done|].
    pose proof (Hl (k, row) (list_elem_of_here _ _)) as Hrow.
    simpl in Hrow. rewrite fmap_cons. cbn [countIf snd length].
    rewrite Hrow, IH; [lia|]. intros kr Hkr. by apply Hl, list_elem_of_further. }
  apply Hgen. intros [k row] Hkr. simpl.
  apply elem_of_map_to_list in Hkr. by destruct (Ht' k row Hkr).
Qed.

Lemma updateWorkHour_keeps_table_tidy_witness :
  let empty := {| userConfig := ∅; workHour := ∅; nextId := 1 |} in
  let monday := Dayjs.mk 19723 48600000 in
  let db := serve [Track 7 monday code 2; Track 7 monday web 5;
                   Track 8 (Dayjs.mk 19723 0) code 1] empty in
  tidy db
  ∧ totalHours (calculateWorkTime (map_to_list (workHour db)).*2)
    = Z.of_nat (size (workHour db))
  ∧ workHour db !! (7, "2024-01-01", 13)
    = Some {| id := 1; userId := 7; date := "2024-01-01"; hour := 13;
              hasActivity := true; codeChanges := 2; webActivities := 5;
              isOvertime := false |}.
Proof.
  intros empty monday db.
  destruct (updateWorkHour_keeps_table_tidy
              [Track 7 monday code 2; Track 7 monday web 5;
               Track 8 (Dayjs.mk 19723 0) code 1] empty) as [H1 H2].
  { intros k row. subst empty. simpl. by rewrite lookup_empty. }
  split; [exact H1|]. split; [exact H2|]. by vm_compute.
Defined.

End Accumulation.

(** ** isOvertimeHour and the shape of the configured windows *)

Section Windows.
Import Server.

Lemma isOvertimeHour_row db user date hour ws we ls le wsMin weMin lsMin leMin :
  0 ≤ ws < 100 → 0 ≤ we < 100 → 0 ≤ ls < 100 → 0 ≤ le < 100 →
  userConfig db !! user
  = Some {| workTimeStart := hhmm ws wsMin; workTimeEnd := hhmm we weMin;
            lunchStart := hhmm ls lsMin; lunchEnd := hhmm le leMin |} →
  isOvertimeHour db user date hour
  = classify (isWeekend date) ws we ls le hour.
Proof.
  intros Hws Hwe Hls Hle Hcfg. unfold isOvertimeHour. rewrite Hcfg.
  cbn [fmap option_fmap option_map workTimeStart workTimeEnd lunchStart
       lunchEnd].
  assert (Hne : ∀ h m d, Js.strOr (Some (hhmm h m)) d = hhmm h m).
  { intros h m d. unfold Js.strOr, hhmm, Js.pad2. by case_decide. }
  rewrite !Hne, !boundaryHour_hhmm by lia. done.
Qed.

(** On a weekday, for a user whose row holds HH:MM boundaries:
    - when the lunch break lies inside the working day, an hour is overtime
      exactly when it is before the start or not before the end of work;
    - when the working day does not end after it starts (a night shift
      entered as 22:00-06:00), every hour outside the lunch break is
      overtime;
    - an hour of the lunch break is never overtime, wherever the break
      lies. *)
Theorem overtime_by_window_shape (db : Database) (user : Z) (date : Dayjs.t)
    (hour ws we ls le : Z) (wsMin weMin lsMin leMin : string) :
  0 ≤ ws < 100 → 0 ≤ we < 100 → 0 ≤ ls < 100 → 0 ≤ le < 100 →
  userConfig db !! user
  = Some {| workTimeStart := hhmm ws wsMin; workTimeEnd := hhmm we weMin;
            lunchStart := hhmm ls lsMin; lunchEnd := hhmm le leMin |} →
  isWeekend date = false →
  (ws ≤ ls → le ≤ we →
   (isOvertimeHour db user date hour = true ↔ hour < ws ∨ we ≤ hour))
  ∧ (we ≤ ws → ¬ (ls ≤ hour < le) →
     isOvertimeHour db user date hour = true)
  ∧ (ls ≤ hour < le → isOvertimeHour db user date hour = false).
Proof.
  intros Hws Hwe Hls Hle Hcfg Hday.
  rewrite (isOvertimeHour_row db user date hour ws we ls le
             wsMin weMin lsMin leMin) by done.
  unfold classify. rewrite Hday.
  destruct (ls <=? hour) eqn:E1, (hour <? le) eqn:E2,
           (hour <? ws) eqn:E3, (we <=? hour) eqn:E4; simpl;
    rewrite ?Z.leb_le, ?Z.leb_gt, ?Z.ltb_lt, ?Z.ltb_ge in *;
    repeat split; intros; try done; try lia.
Qed.

(** A night shift 22:00-06:00 with a break 02:00-03:00, on Monday 2024-01-01:
    hour 10, far from any work, is overtime, and so is hour 23, in the
    middle of the shift. *)
Lemma overtime_by_window_shape_witness :
  let row := {| workTimeStart := "22:00"; workTimeEnd := "06:00";
                lunchStart := "02:00"; lunchEnd := "03:00" |} in
  let db := {| userConfig := {[7 := row]}; workHour := ∅; nextId := 1 |} in
  isOvertimeHour db 7 (Dayjs.mk 19723 0) 23 = true
  ∧ isOvertimeHour db 7 (Dayjs.mk 19723 0) 10 = true
  ∧ isOvertimeHour db 7 (Dayjs.mk 19723 0) 2 = false.
Proof.
  intros row db.
  assert (Hshape := λ hour,
    overtime_by_window_shape db 7 (Dayjs.mk 19723 0) hour 22 6 2 3
      "00" "00" "00" "00" ltac:(lia) ltac:(lia) ltac:(lia) ltac:(lia)
      eq_refl eq_refl).
  split; [|split].
  - apply (Hshape 23); lia.
  - apply (Hshape 10); lia.
  - apply (Hshape 2); lia.
Defined.

End Windows.

(** ** routes/stats.ts *)

Section StatsRoutes.
Import StatsRoute.

(** A user who is not an administrator reads nobody else's buckets: the
    [userId] of the query string is ignored and every row the query returns
    for a date is a row of that date and of the user. (The filter is
    dropped when it is falsy, hence the condition that the user's id is not
    0; ids start at 1.) An administrator who names a user with a non-zero
    number gets that user's rows only. *)
Theorem stats_rows_are_the_users_own (db : Server.Database)
    (user : JwtPayload) (queryUserId : option string) (date : string)
    (row : Server.WorkHour) :
  row ∈ findWorkHours db date (whereUser (getUserIdFilter user queryUserId)) →
  Server.date row = date
  ∧ (isAdmin user = false → userId user ≠ 0 →
     Server.userId row = userId user)
  ∧ (∀ q n, isAdmin user = true → queryUserId = Some q →
            Js.parseInt q = Js.Num n → n ≠ 0 → Server.userId row = n).
Proof.
  unfold findWorkHours. rewrite list_elem_of_filter. intros [Hm _].
  unfold matchesWhere in Hm. apply andb_prop in Hm as [Hd Hu].
  apply bool_decide_eq_true in Hd. split; [done|]. split.
  - intros Hadmin Hid. unfold getUserIdFilter in Hu. rewrite Hadmin in Hu.
    simpl in Hu. apply Z.eqb_neq in Hid. rewrite Hid in Hu.
    by apply Z.eqb_eq in Hu.
  - intros q n Hadmin -> Hq Hn. unfold getUserIdFilter in Hu.
    rewrite Hadmin in Hu. destruct (decide (q = "")) as [->|_].
    { vm_compute in Hq. discriminate. }
    rewrite Hq in Hu. simpl in Hu. apply Z.eqb_neq in Hn. rewrite Hn in Hu.
    by apply Z.eqb_eq in Hu.
Qed.

Definition twoUsers : Server.Database :=
  Server.serve
    [Server.Track 7 (Dayjs.mk 19723 48600000) Server.code 2;
     Server.Track 8 (Dayjs.mk 19723 36000000) Server.web 1]
    {| Server.userConfig := ∅; Server.workHour := ∅; Server.nextId := 1 |}.

Lemma stats_rows_are_the_users_own_witness :
  let user := {| userId := 7; username := "ann"; isAdmin := false |} in
  let row := {| Server.id := 1; Server.userId := 7;
                Server.date := "2024-01-01"; Server.hour := 13;
                Server.hasActivity := true; Server.codeChanges := 2;
                Server.webActivities := 0; Server.isOvertime := false |} in
  findWorkHours twoUsers "2024-01-01"
    (whereUser (getUserIdFilter user (Some "8"))) = [row]
  ∧ Server.date row = "2024-01-01".
Proof.
  intros user row.
  assert (Hrows : findWorkHours twoUsers "2024-01-01"
                    (whereUser (getUserIdFilter user (Some "8"))) = [row])
    by by vm_compute.
  split; [done|].
  apply (stats_rows_are_the_users_own twoUsers user (Some "8") "2024-01-01").
  rewrite Hrows. apply list_elem_of_here.
Defined.

(** The hours of [hourlyMap] merged into one record. *)
Definition mergeHour (h : Z) (d : HourData) (wh : Server.WorkHour)
    : HourData :=
  if Server.hour wh =? h then
    {| hasActivity := hasActivity d || Server.hasActivity wh;
       codeChanges := codeChanges d + Server.codeChanges wh;
       webActivities := webActivities d + Server.webActivities wh;
       isOvertime := isOvertime d || Server.isOvertime wh |}
  else d.

Definition noData : HourData :=
  {| hasActivity := false; codeChanges := 0; webActivities := 0;
     isOvertime := false |}.

Lemma addToHourlyMap_lookup m wh h :
  default noData (addToHourlyMap m wh !! h)
  = mergeHour h (default noData (m !! h)) wh.
Proof.
  unfold addToHourlyMap, mergeHour.
  destruct (Server.hour wh =? h) eqn:Hh.
  - apply Z.eqb_eq in Hh as <-.
    destruct (m !! Server.hour wh) as [existing|] eqn:Hm;
      by rewrite lookup_insert_eq.
  - apply Z.eqb_neq in Hh.
    by destruct (m !! Server.hour wh); rewrite lookup_insert_ne.
Qed.

Lemma fold_addToHourlyMap_lookup workHours m h :
  default noData (fold_left addToHourlyMap workHours m !! h)
  = fold_left (mergeHour h) workHours (default noData (m !! h)).
Proof.
  revert m. induction workHours as [|wh whs IH]; intros m; simpl; [done|].
  by rewrite IH, addToHourlyMap_lookup.
Qed.

Lemma fold_mergeHour workHours h d :
  fold_left (mergeHour h) workHours d
  = {| hasActivity :=
         hasActivity d
         || existsb (λ wh, (Server.hour wh =? h) && Server.hasActivity wh)
              workHours;
       codeChanges :=
         codeChanges d
         + sumOf (λ wh, if Server.hour wh =? h then Server.codeChanges wh
                        else 0) workHours;
       webActivities :=
         webActivities d
         + sumOf (λ wh, if Server.hour wh =? h then Server.webActivities wh
                        else 0) workHours;
       isOvertime :=
         isOvertime d
         || existsb (λ wh, (Server.hour wh =? h) && Server.isOvertime wh)
              workHours |}.
Proof.
  revert d. induction workHours as [|wh whs IH]; intros d; simpl.
  - destruct d; simpl. f_equal; try lia; by rewrite orb_false_r.
  - rewrite IH. unfold mergeHour.
    destruct (Server.hour wh =? h); simpl; f_equal;
      rewrite ?orb_assoc; try lia; done.
Qed.

(** The heat map of the [/today] route always has 24 cells, for the hours
    0 to 23 in order. The cell of an hour adds up the counters of all the
    buckets of that hour (several users' buckets, for an administrator) and
    is active, or overtime, when one of them is. Buckets with an hour
    outside 0..23 appear in no cell. *)
Theorem hourlyHeatmap_cells (workHours : list Server.WorkHour) :
  length (hourlyHeatmap workHours) = 24%nat
  ∧ ∀ h, 0 ≤ h < 24 →
      hourlyHeatmap workHours !! Z.to_nat h
      = Some
          {| cellHour := h;
             cellData :=
               {| hasActivity :=
                    existsb (λ wh, (Server.hour wh =? h)
                                   && Server.hasActivity wh) workHours;
                  codeChanges :=
                    sumOf (λ wh, if Server.hour wh =? h
                                 then Server.codeChanges wh else 0)
                      workHours;
                  webActivities :=
                    sumOf (λ wh, if Server.hour wh =? h
                                 then Server.webActivities wh else 0)
                      workHours;
                  isOvertime :=
                    existsb (λ wh, (Server.hour wh =? h)
                                   && Server.isOvertime wh) workHours |} |}.
Proof.
  unfold hourlyHeatmap. split; [by rewrite length_fmap, length_seqZ|].
  intros h Hh. rewrite list_lookup_fmap, lookup_seqZ_lt by lia.
  rewrite Z2Nat.id, Z.add_0_l by lia.
  cbn [fmap option_fmap option_map]. do 2 f_equal.
  pose proof (fold_addToHourlyMap_lookup workHours ∅ h) as Hfold.
  rewrite lookup_empty, fold_mergeHour in Hfold.
  cbn [default from_option noData hasActivity codeChanges webActivities
       isOvertime orb] in Hfold.
  rewrite !Z.add_0_l in Hfold.
  destruct (fold_left addToHourlyMap workHours ∅ !! h) as [d|];
    cbn [default from_option fmap option_fmap option_map id] in *.
  - by subst d.
  - unfold noData in Hfold. by injection Hfold as <- <- <- <-.
Qed.

End StatsRoutes.

(** ** Paths: basename, the glob results, the exclusion patterns *)

Section Paths.
Import Scanner.
Variable hashString : string → string.

Lemma append_cons a s1 s2 : String a s1 +:+ s2 = String a (s1 +:+ s2).
Proof. done. Qed.

Lemma append_nil_r s : s +:+ "" = s.
Proof. induction s as [|a s IH]; [done|]. by rewrite append_cons, IH. Qed.

Lemma append_assoc s1 s2 s3 : (s1 +:+ s2) +:+ s3 = s1 +:+ (s2 +:+ s3).
Proof.
  induction s1 as [|a s1 IH]; [done|]. by rewrite !append_cons, IH.
Qed.

Lemma rev_app_spec s1 s2 : String.rev_app s1 s2 = String.rev s1 +:+ s2.
Proof.
  revert s2. induction s1 as [|a s1 IH]; intros s2; [done|].
  unfold String.rev. simpl. by rewrite IH, (IH (String a "")), append_assoc.
Qed.

Lemma rev_cons a s : String.rev (String a s) = String.rev s +:+ String a "".
Proof. unfold String.rev at 1. simpl. apply rev_app_spec. Qed.

Lemma rev_append s1 s2 :
  String.rev (s1 +:+ s2) = String.rev s2 +:+ String.rev s1.
Proof.
  induction s1 as [|a s1 IH]; [by rewrite append_nil_r|].
  by rewrite append_cons, !rev_cons, IH, append_assoc.
Qed.

Lemma rev_involutive s : String.rev (String.rev s) = s.
Proof.
  induction s as [|a s IH]; [done|]. by rewrite rev_cons, rev_append, IH.
Qed.

Lemma hasSlash_rev s : hasSlash (String.rev s) = hasSlash s.
Proof. unfold String.rev. rewrite hasSlash_rev_app. simpl. apply orb_false_r. Qed.

Lemma untilSlash_stop s rest :
  hasSlash s = false → Path.untilSlash (s +:+ String "/" rest) = s.
Proof.
  induction s as [|a s IH]; [done|]. rewrite append_cons. simpl.
  destruct (Path.isSlash a); [done|]. simpl. intros Hs. by rewrite IH.
Qed.

Lemma untilSlash_all s : hasSlash s = false → Path.untilSlash s = s.
Proof.
  induction s as [|a s IH]; [done|]. simpl.
  destruct (Path.isSlash a); [done|]. simpl. intros Hs. by rewrite IH.
Qed.

Lemma dropSlashes_start s rest :
  s ≠ "" → hasSlash s = false →
  Path.dropSlashes (s +:+ rest) = s +:+ rest.
Proof.
  destruct s as [|a s]; [done|]. intros _. rewrite append_cons. simpl.
  by destruct (Path.isSlash a).
Qed.

Lemma rev_nonempty s : s ≠ "" → String.rev s ≠ "".
Proof.
  intros Hs Hr. apply Hs. by rewrite <- (rev_involutive s), Hr.
Qed.

(** The name a record carries is the last component of the repository's
    path: [basename] of a directory joined with a name is the name, with or
    without a trailing separator, and [basename] of a bare name is the name
    itself. *)
Theorem basename_of_joined_path (dir name : string) :
  name ≠ EmptyString →
  hasSlash name = false →
  Path.basename (dir +:+ "/" +:+ name) = name
  ∧ Path.basename (dir +:+ "/" +:+ name +:+ "/") = name
  ∧ Path.basename name = name.
Proof.
  intros Hne Hslash. unfold Path.basename.
  pose proof (rev_nonempty name Hne) as Hrne.
  pose proof (hasSlash_rev name) as Hrs. rewrite Hslash in Hrs.
  split; [|split].
  - rewrite !rev_append. change (String.rev "/") with "/".
    rewrite append_assoc, dropSlashes_start by done.
    change ("/" +:+ String.rev dir) with (String "/" (String.rev dir)).
    rewrite (untilSlash_stop _ _ Hrs). apply rev_involutive.
  - rewrite !rev_append. change (String.rev "/") with "/".
    rewrite !append_assoc.
    change ("/" +:+ String.rev name +:+ "/" +:+ String.rev dir)
      with (String "/" (String.rev name +:+ "/" +:+ String.rev dir)).
    cbn [Path.dropSlashes]. change (Path.isSlash "/") with true.
    cbv iota. rewrite dropSlashes_start by done.
    change ("/" +:+ String.rev dir) with (String "/" (String.rev dir)).
    rewrite (untilSlash_stop _ _ Hrs). apply rev_involutive.
  - rewrite <- (append_nil_r (String.rev name)).
    rewrite dropSlashes_start by done. rewrite append_nil_r.
    rewrite (untilSlash_all _ Hrs). apply rev_involutive.
Qed.

Lemma basename_of_joined_path_witness :
  Path.basename ("/home/ann/work" +:+ "/" +:+ "shop-api") = "shop-api"
  ∧ Path.basename ("/home/ann/work" +:+ "/" +:+ "shop-api" +:+ "/")
    = "shop-api"
  ∧ Path.basename "shop-api" = "shop-api".
Proof.
  apply (basename_of_joined_path "/home/ann/work" "shop-api"); done.
Defined.

(** What the glob returns, a path ending in [/.git] (or [\.git]), is turned
    back into the path of the repository. *)
Theorem stripDotGit_of_git_dir (repoPath : string) :
  Path.stripDotGit (repoPath +:+ "/.git") = repoPath
  ∧ Path.stripDotGit (repoPath +:+ "\.git") = repoPath.
Proof.
  unfold Path.stripDotGit. rewrite !rev_append.
  change (String.rev "/.git" +:+ String.rev repoPath)
    with (String "t" (String "i" (String "g" (String "."
            (String "/" (String.rev repoPath)))))).
  change (String.rev "\.git" +:+ String.rev repoPath)
    with (String "t" (String "i" (String "g" (String "."
            (String "\" (String.rev repoPath)))))).
  cbv beta iota.
  change (Ascii.eqb "/" "/" || Ascii.eqb "/" "\") with true.
  change (Ascii.eqb "\" "/" || Ascii.eqb "\" "\") with true.
  cbv iota. by rewrite rev_involutive.
Qed.

Lemma findGitRepos_fold gitDirs repos :
  NoDup repos →
  let found :=
    fold_left
      (λ repos gitDir,
         let repoPath := Path.stripDotGit gitDir in
         if decide (repoPath ∈ repos) then repos else repos ++ [repoPath])
      gitDirs repos in
  NoDup found
  ∧ ∀ p, p ∈ found ↔ p ∈ repos ∨ p ∈ Path.stripDotGit <$> gitDirs.
Proof.
  revert repos. induction gitDirs as [|g gs IH]; intros repos Hnd; simpl.
  - split; [done|]. intros p. split; [auto|]. by intros [?|?%elem_of_nil].
  - destruct (decide (Path.stripDotGit g ∈ repos)) as [Hin|Hnin].
    + destruct (IH repos Hnd) as [H1 H2]. split; [done|].
      intros p. rewrite H2, elem_of_cons. split; [tauto|].
      intros [?|[->|?]]; auto.
    + destruct (IH (repos ++ [Path.stripDotGit g])) as [H1 H2].
      { apply NoDup_app. split; [done|]. split; [|apply NoDup_singleton].
        intros x Hx ->%list_elem_of_singleton. done. }
      split; [done|].
      intros p. rewrite H2, elem_of_app, list_elem_of_singleton, elem_of_cons.
      tauto.
Qed.

(** [findGitRepos] lists no repository twice, even when the glob returns
    the same directory again or a directory that strips to the base path;
    it fails only when the glob does; and it lists exactly the base path,
    when that is a repository, and the stripped glob results, the base path
    first. *)
Theorem findGitRepos_distinct (w : World) (basePath : string) :
  (findGitRepos w basePath = None ↔ globGitDirs w basePath = None)
  ∧ ∀ repos, findGitRepos w basePath = Some repos →
      NoDup repos
      ∧ (∀ p, p ∈ repos
              ↔ (hasDotGit w basePath = true ∧ p = basePath)
                ∨ ∃ gitDirs gitDir,
                    globGitDirs w basePath = Some gitDirs
                    ∧ gitDir ∈ gitDirs ∧ p = Path.stripDotGit gitDir)
      ∧ (hasDotGit w basePath = true → head repos = Some basePath).
Proof.
  unfold findGitRepos.
  destruct (globGitDirs w basePath) as [gitDirs|]; simpl; [|done].
  split; [done|]. intros repos [= <-].
  set (start := if hasDotGit w basePath then [basePath] else []).
  assert (Hstart : NoDup start).
  { subst start. destruct (hasDotGit w basePath);
      [apply NoDup_singleton|apply NoDup_nil_2]. }
  destruct (findGitRepos_fold gitDirs start Hstart) as [Hnd Hin].
  split; [done|]. split.
  - intros p. rewrite Hin, list_elem_of_fmap. subst start. split.
    + intros [Hp|(g & -> & Hg)]; [left|right; eauto].
      destruct (hasDotGit w basePath); [|by apply elem_of_nil in Hp].
      by apply list_elem_of_singleton in Hp.
    + intros [[Hb ->]|(gs & g & [= <-] & Hg & ->)]; [left|right; eauto].
      rewrite Hb. apply list_elem_of_here.
  - intros Hb. subst start. rewrite Hb. clear.
    assert (Hhead : ∀ gs l,
      head (fold_left
              (λ repos gitDir,
                 let repoPath := Path.stripDotGit gitDir in
                 if decide (repoPath ∈ repos) then repos
                 else repos ++ [repoPath]) gs (basePath :: l))
      = Some basePath).
    { induction gs as [|g gs IH]; intros l; [done|]. simpl.
      destruct (decide _); [apply IH|]. apply (IH (l ++ [_])). }
    apply Hhead.
Qed.

Lemma prefix_append p rest : String.prefix p (p +:+ rest) = true.
Proof.
  induction p as [|a p IH]; [by destruct rest|].
  rewrite append_cons. simpl. by destruct (ascii_dec a a).
Qed.

Lemma includes_unfold s p :
  Path.includes s p
  = if String.prefix p s then true
    else match s with
         | EmptyString => false
         | String _ s' => Path.includes s' p
         end.
Proof. by destruct s. Qed.

Lemma includes_append pre p post : Path.includes (pre +:+ p +:+ post) p = true.
Proof.
  induction pre as [|a pre IH].
  - change ("" +:+ p +:+ post) with (p +:+ post).
    by rewrite includes_unfold, prefix_append.
  - rewrite append_cons, includes_unfold.
    by destruct (String.prefix _ _).
Qed.

(** A repository whose path contains one of the exclusion patterns anywhere
    in it is skipped: no record, and nothing stored for it changes. The
    pattern [.git] of the default list thus also skips a repository named
    [me.github.io]. An empty pattern is contained in every path, so with it
    in the list a pass returns no record at all and leaves the state as
    loaded. *)
Theorem excluded_repository_is_skipped (w : World) (config : AgentConfig)
    (now : Z) (pattern : string) :
  pattern ∈ excludePatterns config →
  (∀ acc before after,
     scanRepo hashString w config now acc (before +:+ pattern +:+ after)
     = acc)
  ∧ (pattern = EmptyString →
     ∀ state, scanRepositories hashString w config now state = ([], state)).
Proof.
  intros Hin.
  assert (Hskip : ∀ acc before after,
    scanRepo hashString w config now acc (before +:+ pattern +:+ after)
    = acc).
  { intros [allChanges state] before after. unfold scanRepo.
    assert (Hex : isExcluded config (before +:+ pattern +:+ after) = true).
    { unfold isExcluded. apply existsb_exists. exists pattern.
      split; [by apply list_elem_of_In|].
      rewrite includes_append. apply orb_true_r. }
    by rewrite Hex. }
  split; [done|]. intros -> state.
  unfold scanRepositories. rewrite scanPass_visited.
  assert (Hfold : ∀ repos acc,
    fold_left (scanRepo hashString w config now) repos acc = acc).
  { induction repos as [|p ps IH]; intros acc; [done|]. simpl.
    pose proof (Hskip acc "" p) as Hp.
    change ("" +:+ "" +:+ p) with p in Hp. by rewrite Hp, IH. }
  by rewrite Hfold.
Qed.

End Paths.

Definition defaultExclusions : Scanner.AgentConfig :=
  {| Scanner.watchPaths := ["/home/ann"];
     Scanner.excludePatterns :=
       ["node_modules"; ".git"; "dist"; "build"; ".next"; "coverage"] |}.

Lemma excluded_repository_is_skipped_witness :
  Scanner.scanRepo id desk defaultExclusions 5000 ([], neverScanned)
    ("/home/ann/me" +:+ ".git" +:+ "hub.io")
  = ([], neverScanned).
Proof.
  apply (excluded_repository_is_skipped id desk defaultExclusions 5000 ".git").
  simpl. set_solver.
Defined.

(** ** What a pass does to the state and what it reports *)

Section PassInvariants.
Import Scanner.
Variable hashString : string → string.

Lemma fold_scanRepo_frame w config now repos acc p :
  p ∉ repos →
  view (fold_left (scanRepo hashString w config now) repos acc).2 p
  = view acc.2 p.
Proof.
  revert acc. induction repos as [|r rs IH]; intros acc Hp; [done|].
  simpl. rewrite IH by (intros ?; apply Hp; by apply list_elem_of_further).
  rewrite scanRepo_state. destruct (isExcluded config r); [done|].
  destruct (simpleGit w r); [|done]. apply visit_frame.
  intros ->. apply Hp, list_elem_of_here.
Qed.

(** The entries of the state are independent keys: the visit of one
    repository changes nothing stored for another path, and a whole pass
    changes nothing stored for a path it does not visit (an entry of a
    repository that is no longer under the watch paths stays as it is). *)
Theorem pass_touches_visited_repositories_only (w : World)
    (config : AgentConfig) (now : Z) :
  (∀ acc repoPath other,
     other ≠ repoPath →
     view (scanRepo hashString w config now acc repoPath).2 other
     = view acc.2 other)
  ∧ (∀ state p,
       p ∉ visited w config →
       view (scanRepositories hashString w config now state).2 p
       = view state p).
Proof.
  split.
  - intros acc repoPath other Hne. rewrite scanRepo_state.
    destruct (isExcluded config repoPath); [done|].
    destruct (simpleGit w repoPath); [|done]. by apply visit_frame.
  - intros state p Hp.
    assert (Hst : (scanRepositories hashString w config now state).2
                  = (scanPass hashString w config now state).2).
    { unfold scanRepositories. by destruct (scanPass _ _ _ _ _). }
    rewrite Hst, scanPass_visited. by apply fold_scanRepo_frame.
Qed.

Lemma getNewCommits_records git repoPath state now r :
  r ∈ (getNewCommits git repoPath state now).1 →
  ∃ branch all c,
    Git.revparse git = Some branch
    ∧ Git.log git
        (chooseLogOptions git (lastCommitHashes state !! repoPath) now)
      = Some all
    ∧ c ∈ all ∧ recordOf git repoPath branch c = Some r.
Proof.
  unfold getNewCommits.
  destruct (Git.revparse git) as [branch|]; [|by intros ?%elem_of_nil].
  destruct (Git.log git _) as [all|] eqn:Hlog; [|by intros ?%elem_of_nil].
  rewrite (processCommit_fold git repoPath branch _ [] state None). simpl.
  intros (c & Hc & Hr)%list_elem_of_omap.
  exists branch, all, c. by rewrite elem_of_reverse in Hc.
Qed.

(** The first scan of a repository does not flood the server with its
    history: with no hash stored for it (or an empty one), every commit
    record is for a commit of the checked-out branch made within the last
    hour; with a stored hash [git show] throws on (it names no commit of the
    repository any more), within the last 24 hours. The bound is the one git
    applies: dates are compared in seconds, and the fraction of a second of
    the [--since] date is dropped. *)
Theorem first_scan_window (git : Git.t) (repoPath : string)
    (state : ScannerState) (now : Z) (r : InternalRepoChange) :
  r ∈ (getNewCommits git repoPath state now).1 →
  let stored := lastCommitHashes state !! repoPath in
  let within (ms : Z) :=
    ∃ c, c ∈ Git.branch git ∧ commitHash (change r) = Some (Git.hash c)
         ∧ (now - ms) / 1000 ≤ Git.time c in
  (stored = None ∨ stored = Some EmptyString → within (60 * 60 * 1000))
  ∧ (∀ h, stored = Some h → h ≠ EmptyString →
          Git.showQuiet git h = None →
          within (24 * 60 * 60 * 1000)).
Proof.
  intros (branch & all & c & Hb & Hlog & Hc & Hr)%getNewCommits_records.
  intros stored within. subst stored within. cbv beta.
  apply recordOf_Some in Hr as (out & _ & _ & ->). cbn [change commitHash].
  assert (Hsince : ∀ d,
    chooseLogOptions git (lastCommitHashes state !! repoPath) now
    = Git.Since d →
    ∃ c0, c0 ∈ Git.branch git ∧ Some (Git.hash c) = Some (Git.hash c0)
          ∧ d / 1000 ≤ Git.time c0).
  { intros d Hopt. rewrite Hopt in Hlog. unfold Git.log in Hlog.
    destruct (Git.logWorks git); [|done]. unfold Git.branch.
    destruct (Git.head git) as [tip|]; [|done]. simpl in *.
    injection Hlog as <-. exists c. split; [|split; [done|]].
    - by apply (walk_mono _ {[tip]} {[tip]}) in Hc.
    - apply walk_keep in Hc. by apply Z.leb_le in Hc. }
  split.
  - intros Hst. apply Hsince. unfold chooseLogOptions.
    destruct Hst as [-> | ->]; [done|]. by rewrite decide_True.
  - intros h Hst Hne Hgone. apply Hsince. rewrite Hst.
    unfold chooseLogOptions. by rewrite decide_False, Hgone.
Qed.

(** A repository never scanned before, with a commit made two hours ago
    and one made ten minutes ago: only the second is reported. *)
Definition agedRepo : Git.t :=
  {| Git.headBranch := Some "main";
     Git.head := Some "new";
     Git.history := [Git.mkCommit "new" 9400 ["old"];
                     Git.mkCommit "old" 2800 []];
     Git.logWorks := true;
     Git.showStat := λ _, Some " 1 file changed, 1 insertion(+)";
     Git.diffStat := Some ""; Git.diffSummaryHead := None |}.

Lemma first_scan_window_witness :
  (commitHash ∘ change)
    <$> (getNewCommits agedRepo "/w/app" neverScanned 10000000).1
  = [Some "new"]
  ∧ ∃ c, c ∈ Git.branch agedRepo ∧ Some "new" = Some (Git.hash c)
         ∧ (10000000 - 60 * 60 * 1000) / 1000 ≤ Git.time c.
Proof.
  split; [by vm_compute|].
  apply (first_scan_window agedRepo "/w/app" neverScanned 10000000
           {| _repoPath := "/w/app";
              change := {| repoName := "app"; branch := "main";
                           linesAdded := 1; linesDeleted := 0;
                           filesChanged := 1; isCommitted := true;
                           commitHash := Some "new" |} |}).
  - vm_compute. apply list_elem_of_here.
  - by left.
Defined.

Lemma advance_cases git cursor commits :
  advance git cursor commits = cursor
  ∨ ∃ c, c ∈ commits ∧ advance git cursor commits = Some (Git.hash c).
Proof.
  rewrite advance_last.
  destruct (last (filter (λ c, shown git c = true) commits)) as [c|] eqn:Hl;
    [|by left].
  right. exists c. split; [|done].
  apply last_Some_elem_of in Hl. by apply list_elem_of_filter in Hl as [_ ?].
Qed.

Lemma getNewCommits_cursor git repoPath state now p :
  lastCommitHashes (getNewCommits git repoPath state now).2 !! p
  = lastCommitHashes state !! p
  ∨ (p = repoPath
     ∧ ∃ c, c ∈ Git.history git
            ∧ lastCommitHashes (getNewCommits git repoPath state now).2 !! p
              = Some (Git.hash c)).
Proof.
  unfold getNewCommits.
  destruct (Git.revparse git) as [branch|]; [|by left].
  destruct (Git.log git _) as [all|] eqn:Hlog; [|by left].
  rewrite (processCommit_fold git repoPath branch _ [] state None). simpl.
  destruct (advance_cases git None (reverse all)) as [->|(c & Hc & ->)];
    [by left|]. simpl.
  destruct (decide (p = repoPath)) as [->|Hne].
  - right. split; [done|]. exists c. rewrite lookup_insert_eq.
    split; [|done]. rewrite elem_of_reverse in Hc.
    by eapply log_elem_of.
  - left. by rewrite lookup_insert_ne.
Qed.

(** The hash stored for a path after any number of visits: the one stored
    before, or the hash of a commit of the repository at that path. *)
Definition cursorKept (w : World) (before after : gmap string string)
    : Prop :=
  ∀ p, after !! p = before !! p
       ∨ ∃ git c, simpleGit w p = Some git ∧ c ∈ Git.history git
                  ∧ after !! p = Some (Git.hash c).

Lemma scanRepo_cursorKept w config now acc repoPath before :
  cursorKept w before (lastCommitHashes acc.2) →
  cursorKept w before
    (lastCommitHashes (scanRepo hashString w config now acc repoPath).2).
Proof.
  intros Hkept p. rewrite scanRepo_state.
  destruct (isExcluded config repoPath); [apply Hkept|].
  destruct (simpleGit w repoPath) as [git|] eqn:Hgit; [|apply Hkept].
  unfold visit. rewrite getUncommittedChanges_commits.
  destruct (getNewCommits_cursor git repoPath acc.2 now p)
    as [->|(-> & c & Hc & ->)]; [apply Hkept|].
  right. eauto.
Qed.

(** A pass never forgets where it was: for every path, the last-commit hash
    in the state it hands to [saveState] is the one it loaded, or the hash
    of a commit in the history of the repository at that path. In
    particular a path with a stored hash still has one afterwards. *)
Theorem cursor_is_kept_or_moved_to_a_commit (w : World)
    (config : AgentConfig) (now : Z) (state : ScannerState) :
  let saved := (scanRepositories hashString w config now state).2 in
  cursorKept w (lastCommitHashes state) (lastCommitHashes saved)
  ∧ ∀ p, is_Some (lastCommitHashes state !! p) →
         is_Some (lastCommitHashes saved !! p).
Proof.
  intros saved.
  assert (Hkept : cursorKept w (lastCommitHashes state)
                    (lastCommitHashes saved)).
  { subst saved.
    assert (Hst : (scanRepositories hashString w config now state).2
                  = (scanPass hashString w config now state).2).
    { unfold scanRepositories. by destruct (scanPass _ _ _ _ _). }
    rewrite Hst, scanPass_visited.
    assert (Hgen : ∀ repos acc,
      cursorKept w (lastCommitHashes state) (lastCommitHashes acc.2) →
      cursorKept w (lastCommitHashes state)
        (lastCommitHashes
           (fold_left (scanRepo hashString w config now) repos acc).2)).
    { induction repos as [|r rs IH]; intros acc Hacc; [done|].
      simpl. by apply IH, scanRepo_cursorKept. }
    apply Hgen. intros p. by left. }
  split; [done|]. intros p Hp.
  destruct (Hkept p) as [->|(git & c & _ & _ & ->)]; eauto.
Qed.

(** *** The counts of the records *)

Lemma digitValue_nonneg c : Js.isDigit c = true → 0 ≤ Js.digitValue c.
Proof.
  unfold Js.isDigit, Js.digitValue. intros [H _]%andb_prop.
  apply N.leb_le in H. lia.
Qed.

Lemma digitsValue_nonneg s acc v :
  0 ≤ acc → Js.digitsValue acc s = Some v → 0 ≤ v.
Proof.
  revert acc. induction s as [|c s IH]; intros acc Hacc; simpl.
  - by intros [= <-].
  - destruct (Js.isDigit c) eqn:Hc; [|done]. apply IH.
    pose proof (digitValue_nonneg c Hc). lia.
Qed.

Lemma parseIntOr0_nonneg group : 0 ≤ parseIntOr0 group.
Proof.
  destruct group as [d|]; simpl; [|done].
  destruct (Js.digitsValue 0 d) as [v|] eqn:Hv; simpl; [|done].
  by eapply digitsValue_nonneg.
Qed.

Lemma parseGitStats_nonneg output :
  0 ≤ Stats.linesAdded (parseGitStats output)
  ∧ 0 ≤ Stats.linesDeleted (parseGitStats output)
  ∧ 0 ≤ Stats.filesChanged (parseGitStats output).
Proof.
  unfold parseGitStats.
  destruct (matchStats _) as [[[g1 g2] g3]|];
    cbn [Stats.linesAdded Stats.linesDeleted Stats.filesChanged]; [|done].
  split; [|split]; apply parseIntOr0_nonneg.
Qed.

(** What the server's schema asks of a record, and what tells the two kinds
    of record apart. *)
Definition wellCounted (r : RepoChange) : Prop :=
  0 ≤ linesAdded r ∧ 0 ≤ linesDeleted r ∧ 0 ≤ filesChanged r
  ∧ (if isCommitted r
     then 0 < filesChanged r ∧ is_Some (commitHash r)
     else commitHash r = None ∧ (0 < linesAdded r ∨ 0 < linesDeleted r)).

Lemma getNewCommits_wellCounted git repoPath state now :
  Forall (wellCounted ∘ change) (getNewCommits git repoPath state now).1.
Proof.
  apply Forall_forall. intros r Hr.
  apply getNewCommits_records in Hr as (branch & all & c & _ & _ & _ & Hr).
  apply recordOf_Some in Hr as (out & _ & Hpos & ->).
  destruct (parseGitStats_nonneg out) as (? & ? & ?).
  unfold wellCounted. simpl. eauto 10.
Qed.

Lemma getUncommittedChanges_wellCounted git repoPath state u :
  (getUncommittedChanges hashString git repoPath state).1 = Some u →
  wellCounted (change u).
Proof.
  unfold getUncommittedChanges.
  destruct (Git.revparse git); [|done]. destruct (Git.diff git); [|done].
  destruct (decide _); [done|]. destruct (decide _); [done|].
  destruct (Git.diffSummary git) as [summary|]; [|done].
  cbn [Stats.linesAdded Stats.linesDeleted Stats.filesChanged].
  set (a := Z.max 0 _). set (d := Z.max 0 (Git.deletions summary - _)).
  set (f := Z.max 0 (Z.of_nat _ - _)).
  assert (Hpos : 0 ≤ a ∧ 0 ≤ d ∧ 0 ≤ f) by (subst a d f; lia).
  destruct ((a =? 0) && (d =? 0)) eqn:Hz; [done|].
  simpl. intros [= <-]. unfold wellCounted. simpl.
  apply andb_false_iff in Hz. rewrite !Z.eqb_neq in Hz.
  repeat split; try lia; done.
Qed.

(** Every record [scanRepositories] returns passes the number checks of the
    server's schema (the three counts are integers that are not negative).
    A committed record changes at least one file and carries a hash; an
    uncommitted record carries none and adds or deletes at least one
    line. *)
Theorem records_are_well_counted (w : World) (config : AgentConfig)
    (now : Z) (state : ScannerState) (r : RepoChange) :
  r ∈ (scanRepositories hashString w config now state).1 →
  wellCounted r.
Proof.
  assert (Hout : (scanRepositories hashString w config now state).1
                 = change <$> (scanPass hashString w config now state).1).
  { unfold scanRepositories. by destruct (scanPass _ _ _ _ _). }
  rewrite Hout, scanPass_visited.
  assert (Hgen : ∀ repos acc,
    Forall (wellCounted ∘ change) acc.1 →
    Forall (wellCounted ∘ change)
      (fold_left (scanRepo hashString w config now) repos acc).1).
  { induction repos as [|p ps IH]; intros acc Hacc; [done|].
    simpl. apply IH. destruct acc as [allChanges st]. unfold scanRepo.
    destruct (isExcluded config p); [done|].
    destruct (simpleGit w p) as [git|]; [|done].
    pose proof (getNewCommits_wellCounted git p st now) as Hc.
    destruct (getNewCommits git p st now) as [commits st1].
    pose proof (getUncommittedChanges_wellCounted git p st1) as Hu.
    destruct (getUncommittedChanges hashString git p st1) as [[u|] st2];
      simpl in *.
    - rewrite !Forall_app. split; [done|]. apply Forall_singleton.
      by apply Hu.
    - by rewrite Forall_app. }
  intros (c & -> & Hc)%list_elem_of_fmap.
  specialize (Hgen (visited w config) ([], state) (Forall_nil_2 _)).
  rewrite Forall_forall in Hgen. by apply Hgen.
Qed.

End PassInvariants.

Lemma records_are_well_counted_witness :
  (Scanner.scanRepositories id desk deskConfig 5000 neverScanned).1
  = [ {| Scanner.repoName := "app"; Scanner.branch := "main";
         Scanner.linesAdded := 2; Scanner.linesDeleted := 0;
         Scanner.filesChanged := 1; Scanner.isCommitted := true;
         Scanner.commitHash := Some "B" |};
      {| Scanner.repoName := "app"; Scanner.branch := "main";
         Scanner.linesAdded := 1; Scanner.linesDeleted := 1;
         Scanner.filesChanged := 2; Scanner.isCommitted := true;
         Scanner.commitHash := Some "C" |};
      {| Scanner.repoName := "app"; Scanner.branch := "main";
         Scanner.linesAdded := 2; Scanner.linesDeleted := 2;
         Scanner.filesChanged := 1; Scanner.isCommitted := false;
         Scanner.commitHash := None |} ]
  ∧ wellCounted
      {| Scanner.repoName := "app"; Scanner.branch := "main";
         Scanner.linesAdded := 2; Scanner.linesDeleted := 2;
         Scanner.filesChanged := 1; Scanner.isCommitted := false;
         Scanner.commitHash := None |}.
Proof.
  split; [by vm_compute|].
  apply (records_are_well_counted id desk deskConfig 5000 neverScanned).
  vm_compute. do 2 apply list_elem_of_further. apply list_elem_of_here.
Defined.

(** ** Polling the working tree *)

Section Polling.
Import Scanner.
Variable hashString : string → string.

(** One poll of the working tree of a repository: the records so far and
    the state. *)
Definition poll (repoPath : string)
    (acc : list InternalRepoChange * ScannerState) (git : Git.t)
    : list InternalRepoChange * ScannerState :=
  ((acc.1 ++ option_list
               (getUncommittedChanges hashString git repoPath acc.2).1),
   (getUncommittedChanges hashString git repoPath acc.2).2).

(** The snapshot stored for a repository, zeros when there is none. *)
Definition snapshot (state : ScannerState) (repoPath : string) : Stats.t :=
  default Stats.zero (lastUncommittedStats state !! repoPath).

(** The diff summary counts lines. *)
Definition countsLines (git : Git.t) : Prop :=
  ∀ summary, Git.diffSummary git = Some summary →
             0 ≤ Git.insertions summary ∧ 0 ≤ Git.deletions summary.

Lemma sumOf_app {A} (f : A → Z) l1 l2 :
  sumOf f (l1 ++ l2) = sumOf f l1 + sumOf f l2.
Proof. induction l1 as [|x l1 IH]; simpl; [done|]. rewrite IH. lia. Qed.

Lemma snapshot_insert a b m repoPath stats :
  snapshot {| lastCommitHashes := a; lastDiffHashes := b;
              lastUncommittedStats := <[repoPath := stats]> m |} repoPath
  = stats.
Proof. unfold snapshot. simpl. by rewrite lookup_insert_eq. Qed.

Lemma snapshot_delete a b m repoPath :
  snapshot {| lastCommitHashes := a; lastDiffHashes := b;
              lastUncommittedStats := delete repoPath m |} repoPath
  = Stats.zero.
Proof. unfold snapshot. simpl. by rewrite lookup_delete_eq. Qed.

Lemma sumOf_option_list {A} (f : A → Z) (o : option A) :
  sumOf f (option_list o) = from_option f 0 o.
Proof. destruct o; simpl; lia. Qed.

Lemma getUncommittedChanges_growth git repoPath state :
  countsLines git →
  0 ≤ Stats.linesAdded (snapshot state repoPath) →
  0 ≤ Stats.linesDeleted (snapshot state repoPath) →
  let result := getUncommittedChanges hashString git repoPath state in
  let reported := option_list result.1 in
  Stats.linesAdded (snapshot result.2 repoPath)
  ≤ Stats.linesAdded (snapshot state repoPath)
    + sumOf (linesAdded ∘ change) reported
  ∧ Stats.linesDeleted (snapshot result.2 repoPath)
    ≤ Stats.linesDeleted (snapshot state repoPath)
      + sumOf (linesDeleted ∘ change) reported
  ∧ 0 ≤ Stats.linesAdded (snapshot result.2 repoPath)
  ∧ 0 ≤ Stats.linesDeleted (snapshot result.2 repoPath).
Proof.
  intros Hnat Ha Hd. cbv zeta. rewrite !sumOf_option_list.
  unfold getUncommittedChanges.
  destruct (Git.revparse git); [|cbn; lia].
  destruct (Git.diff git); [|cbn; lia].
  destruct (decide _).
  { cbn [fst snd from_option]. rewrite snapshot_delete. cbn. lia. }
  destruct (decide _); [cbn; lia|].
  destruct (Git.diffSummary git) as [summary|] eqn:Hs; [|cbn; lia].
  destruct (Hnat summary Hs) as [Hi Hdel].
  cbn [Stats.linesAdded Stats.linesDeleted Stats.filesChanged].
  fold (snapshot state repoPath).
  set (a := Z.max 0 (Git.insertions summary - _)).
  set (d := Z.max 0 (Git.deletions summary - _)).
  assert (Ha' : Git.insertions summary
                ≤ Stats.linesAdded (snapshot state repoPath) + a)
    by (subst a; lia).
  assert (Hd' : Git.deletions summary
                ≤ Stats.linesDeleted (snapshot state repoPath) + d)
    by (subst d; lia).
  clearbody a d.
  destruct ((a =? 0) && (d =? 0)) eqn:Hz.
  - apply andb_prop in Hz as [Hza Hzd]. apply Z.eqb_eq in Hza, Hzd.
    cbn [fst snd from_option]. rewrite snapshot_insert.
    cbn [Stats.linesAdded Stats.linesDeleted]. lia.
  - cbn [fst snd from_option]. rewrite snapshot_insert.
    cbn [Stats.linesAdded Stats.linesDeleted compose change linesAdded
         linesDeleted]. lia.
Qed.

(** Delta reporting loses no growth. Over any sequence of polls of one
    repository, whatever happens to the working tree in between (it grows,
    shrinks, is committed or reverted), the lines stored as the current
    uncommitted size never exceed what was stored at the start plus the sum
    of the added-line counts of the records returned; the same holds for
    the deleted lines. *)
Theorem uncommitted_growth_is_reported (repoPath : string)
    (trees : list Git.t) (state : ScannerState) :
  Forall countsLines trees →
  0 ≤ Stats.linesAdded (snapshot state repoPath) →
  0 ≤ Stats.linesDeleted (snapshot state repoPath) →
  let result := fold_left (poll repoPath) trees ([], state) in
  Stats.linesAdded (snapshot result.2 repoPath)
  ≤ Stats.linesAdded (snapshot state repoPath)
    + sumOf (linesAdded ∘ change) result.1
  ∧ Stats.linesDeleted (snapshot result.2 repoPath)
    ≤ Stats.linesDeleted (snapshot state repoPath)
      + sumOf (linesDeleted ∘ change) result.1.
Proof.
  intros Hnat Ha Hd.
  assert (Hgen : ∀ trees acc,
    Forall countsLines trees →
    0 ≤ Stats.linesAdded (snapshot acc.2 repoPath) →
    0 ≤ Stats.linesDeleted (snapshot acc.2 repoPath) →
    let result := fold_left (poll repoPath) trees acc in
    Stats.linesAdded (snapshot result.2 repoPath)
      + sumOf (linesAdded ∘ change) acc.1
    ≤ Stats.linesAdded (snapshot acc.2 repoPath)
      + sumOf (linesAdded ∘ change) result.1
    ∧ Stats.linesDeleted (snapshot result.2 repoPath)
        + sumOf (linesDeleted ∘ change) acc.1
      ≤ Stats.linesDeleted (snapshot acc.2 repoPath)
        + sumOf (linesDeleted ∘ change) result.1).
  { clear. induction trees as [|git gits IH]; intros acc Hnat Ha Hd;
      [simpl; lia|].
    apply Forall_cons in Hnat as [Hgit Hgits].
    destruct (getUncommittedChanges_growth git repoPath acc.2 Hgit Ha Hd)
      as (G1 & G2 & G3 & G4).
    cbn [fold_left]. specialize (IH (poll repoPath acc git) Hgits G3 G4).
    cbv zeta in IH, G1, G2.
    assert (P1 : (poll repoPath acc git).1
                 = acc.1 ++ option_list
                     (getUncommittedChanges hashString git repoPath acc.2).1)
      by done.
    assert (P2 : (poll repoPath acc git).2
                 = (getUncommittedChanges hashString git repoPath acc.2).2)
      by done.
    rewrite P1, P2, !sumOf_app in IH. lia. }
  intros result. specialize (Hgen trees ([], state) Hnat Ha Hd).
  cbv zeta in Hgen. cbn [fst snd sumOf] in Hgen. fold result in Hgen. lia.
Qed.

End Polling.

(** The tree grows to +10/-2, shrinks to +4/-2, then grows to +9/-3: the
    records add up to +15/-3 while the stored size is +9/-3. *)
Lemma uncommitted_growth_is_reported_witness :
  let trees := [scenarioTree "a" 10 2; scenarioTree "b" 4 2;
                scenarioTree "c" 9 3] in
  let result := fold_left (poll id "/w/app") trees ([], neverScanned) in
  sumOf (Scanner.linesAdded ∘ Scanner.change) result.1 = 15
  ∧ Scanner.Stats.linesAdded (snapshot result.2 "/w/app") = 9
  ∧ Scanner.Stats.linesAdded (snapshot result.2 "/w/app")
    ≤ Scanner.Stats.linesAdded (snapshot neverScanned "/w/app")
      + sumOf (Scanner.linesAdded ∘ Scanner.change) result.1.
Proof.
  intros trees result. split; [by vm_compute|]. split; [by vm_compute|].
  apply (uncommitted_growth_is_reported id "/w/app" trees neverScanned).
  - subst trees. repeat apply Forall_cons_2; [..|apply Forall_nil_2];
      intros summary [= <-]; simpl; lia.
  - by vm_compute.
  - by vm_compute.
Defined.

(** ** saveState and loadState *)

Section SaveLoad.
Import Scanner.

Lemma lookupField_NoDup k (fields : list (string * JsValue)) :
  NoDup fields.*1 →
  ∀ v, lookupField k fields = Some v ↔ (k, v) ∈ fields.
Proof.
  induction fields as [|[k' v'] rest IH]; intros Hnd v.
  - simpl. split; [done|by intros ?%elem_of_nil].
  - rewrite fmap_cons in Hnd. apply NoDup_cons in Hnd as [Hk' Hnd].
    specialize (IH Hnd). cbn [lookupField]. rewrite elem_of_cons.
    destruct (lookupField k rest) as [v''|] eqn:Hrest.
    + pose proof (proj1 (IH v'') eq_refl) as Hin''. split.
      * intros [= ->]. by right.
      * intros [[= <- <-]|Hin].
        -- exfalso. apply Hk'. simpl.
           by apply (list_elem_of_fmap_2 fst rest (k, v'')).
        -- by apply IH in Hin.
    + split.
      * case_decide; [|done]. intros [= ->]. left. by subst.
      * intros [[= <- <-]|Hin]; [by rewrite decide_True|].
        by apply IH in Hin.
Qed.

Lemma lookupField_record {A} (f : A → JsValue) (m : gmap string A) k :
  lookupField k (prod_map id f <$> map_to_list m) = f <$> m !! k.
Proof.
  assert (Hnd : NoDup (prod_map id f <$> map_to_list m).*1).
  { rewrite <- list_fmap_compose.
    rewrite (list_fmap_ext (fst ∘ prod_map id f) fst (map_to_list m))
      by (by intros ? [? ?]).
    apply NoDup_fst_map_to_list. }
  destruct (m !! k) as [a|] eqn:Hk; simpl.
  - apply lookupField_NoDup; [done|].
    apply (list_elem_of_fmap_2' _ _ (k, a)); [|done].
    by apply elem_of_map_to_list.
  - destruct (lookupField k _) as [v|] eqn:Hl; [|done].
    apply lookupField_NoDup in Hl; [|done].
    apply list_elem_of_fmap in Hl as ([k' a] & [= -> ->] & Hin).
    apply elem_of_map_to_list in Hin. congruence.
Qed.

(** What [saveState] writes, [loadState] reads back: after a write that
    went through, the three loaded fields are objects in which every
    repository path has the value it had in the saved state (a hash is a
    string, a snapshot an object with its three counts), and a path that
    had none is [undefined]. A refused write changes nothing. *)
Theorem saveState_then_loadState (state : ScannerState) (file : StateFile) :
  let loaded := loadState (saveState Written state file) in
  (∀ p, getProp (loadedCommitHashes loaded) p
        = Some (JStr <$> lastCommitHashes state !! p))
  ∧ (∀ p, getProp (loadedDiffHashes loaded) p
          = Some (JStr <$> lastDiffHashes state !! p))
  ∧ (∀ p, getProp (loadedUncommittedStats loaded) p
          = Some (statsToJson <$> lastUncommittedStats state !! p))
  ∧ isMap (loadedCommitHashes loaded) = true
  ∧ isMap (loadedDiffHashes loaded) = true
  ∧ isMap (loadedUncommittedStats loaded) = true
  ∧ loadState (saveState Refused state file) = loadState file.
Proof.
  intros loaded.
  assert (Hloaded : loaded
    = {| loadedCommitHashes := recordToJson JStr (lastCommitHashes state);
         loadedDiffHashes := recordToJson JStr (lastDiffHashes state);
         loadedUncommittedStats :=
           recordToJson statsToJson (lastUncommittedStats state) |})
    by done.
  rewrite Hloaded. unfold recordToJson. simpl.
  repeat split; intros; by rewrite lookupField_record.
Qed.

End SaveLoad.

(** ** parseGitStats reads what git prints *)

Section SummaryLine.
Import Scanner.

Fixpoint allDigits (s : string) : bool :=
  match s with
  | EmptyString => true
  | String c s' => Js.isDigit c && allDigits s'
  end.

(** A decimal numeral: digits, at least one. *)
Definition numeral (s : string) : Prop :=
  s ≠ EmptyString ∧ allDigits s = true.

(** [String(n)] for an integer that is not negative. *)
Fixpoint decimalFuel (fuel : nat) (n : Z) : string :=
  match fuel with
  | O => EmptyString
  | S fuel' =>
      (if n <? 10 then EmptyString else decimalFuel fuel' (n / 10))
      +:+ String (Js.digitChar n) EmptyString
  end.

Definition decimal (n : Z) : string := decimalFuel (S (Z.to_nat n)) n.

(** git's wording: "1 file", "2 files". *)
Definition plural (n word : string) : string :=
  if decide (n = "1") then word else word +:+ "s".

Definition countText (count : option string) (word sign : string) : string :=
  match count with
  | Some n => ", " +:+ n +:+ " " +:+ plural n word +:+ sign
  | None => EmptyString
  end.

(** The summary line of [git show --stat]: the files, then the insertions
    and the deletions when there are any. *)
Definition summaryText (files : string) (ins del : option string) : string :=
  files +:+ " " +:+ plural files "file" +:+ " changed"
  +:+ countText ins "insertion" "(+)" +:+ countText del "deletion" "(-)".

Fixpoint noDigit (s : string) : bool :=
  match s with
  | EmptyString => true
  | String c s' => negb (Js.isDigit c) && noDigit s'
  end.

Lemma append_nil_l s : "" +:+ s = s.
Proof. done. Qed.

Lemma digitChar_digit n :
  Js.isDigit (Js.digitChar n) = true
  ∧ Js.digitValue (Js.digitChar n) = n mod 10.
Proof.
  unfold Js.isDigit, Js.digitValue, Js.digitChar.
  pose proof (Z.mod_pos_bound n 10 ltac:(lia)) as Hm.
  rewrite N_ascii_embedding by lia. split.
  - apply andb_true_intro. split; apply N.leb_le; lia.
  - lia.
Qed.

Lemma digitsValue_snoc acc s c :
  Js.digitsValue acc (s +:+ String c "")
  = v ← Js.digitsValue acc s;
    if Js.isDigit c then Some (10 * v + Js.digitValue c) else None.
Proof.
  revert acc. induction s as [|a s IH]; intros acc.
  - simpl. by destruct (Js.isDigit c).
  - rewrite append_cons. simpl. destruct (Js.isDigit a); [apply IH|done].
Qed.

Lemma allDigits_snoc s c :
  allDigits (s +:+ String c "") = allDigits s && Js.isDigit c.
Proof.
  induction s as [|a s IH].
  - simpl. by rewrite andb_true_r.
  - rewrite append_cons. simpl. by rewrite IH, andb_assoc.
Qed.

Lemma snoc_nonempty s c : s +:+ String c "" ≠ "".
Proof. by destruct s. Qed.

Lemma decimalFuel_spec fuel n :
  0 ≤ n → (Z.to_nat n < fuel)%nat →
  numeral (decimalFuel fuel n)
  ∧ Js.digitsValue 0 (decimalFuel fuel n) = Some n.
Proof.
  revert n. induction fuel as [|fuel IH]; intros n Hn Hfuel; [lia|].
  cbn [decimalFuel]. destruct (digitChar_digit n) as [Hd Hv].
  destruct (n <? 10) eqn:Hlt.
  - apply Z.ltb_lt in Hlt. rewrite append_nil_l. split.
    + split; [done|]. simpl. by rewrite Hd.
    + simpl. rewrite Hd, Hv. f_equal. rewrite Z.mod_small; lia.
  - apply Z.ltb_ge in Hlt.
    destruct (IH (n / 10)) as [[_ Hall] Hval].
    { apply Z.div_pos; lia. }
    { assert (n / 10 < n) by (apply Z.div_lt; lia). lia. }
    split.
    + split; [apply snoc_nonempty|]. by rewrite allDigits_snoc, Hall, Hd.
    + rewrite digitsValue_snoc, Hval. simpl. rewrite Hd, Hv. f_equal.
      pose proof (Z.div_mod n 10 ltac:(lia)). lia.
Qed.

Lemma decimal_spec n :
  0 ≤ n → numeral (decimal n) ∧ Js.digitsValue 0 (decimal n) = Some n.
Proof. intros Hn. apply decimalFuel_spec; [done|lia]. Qed.

Lemma digit_not_space c : Js.isDigit c = true → Js.isSpace c = false.
Proof.
  unfold Js.isDigit, Js.isSpace. intros [H1 H2]%andb_prop.
  apply N.leb_le in H1, H2. apply orb_false_intro.
  - apply N.eqb_neq. lia.
  - apply andb_false_intro2, N.leb_gt. lia.
Qed.

Lemma spanDigits_numeral n c rest :
  allDigits n = true → Js.isDigit c = false →
  spanDigits (n +:+ String c rest) = (n, String c rest).
Proof.
  intros Hn Hc. induction n as [|a n IH].
  - rewrite append_nil_l. simpl. by rewrite Hc.
  - rewrite append_cons. simpl in *. apply andb_prop in Hn as [Ha Hn].
    by rewrite Ha, IH.
Qed.

Lemma digits1_numeral n c rest :
  numeral n → Js.isDigit c = false →
  digits1 (n +:+ String c rest) = Some (n, String c rest).
Proof.
  intros [Hne Hn] Hc. unfold digits1.
  rewrite spanDigits_numeral by done. by rewrite decide_False.
Qed.

Lemma dropSpaces_numeral n rest :
  numeral n → Js.dropSpaces (n +:+ rest) = n +:+ rest.
Proof.
  intros [Hne Hn]. destruct n as [|a n]; [done|].
  rewrite append_cons. simpl in *. apply andb_prop in Hn as [Ha _].
  by rewrite (digit_not_space a Ha).
Qed.

(** The three words of the summary line. *)
Definition isWord (word : string) : Prop :=
  word = "file" ∨ word = "insertion" ∨ word = "deletion".

(** After the numeral, the space and the word, singular or plural, the
    pattern [<word>s?] leaves what follows, provided that does not itself
    start with an [s]. *)
Lemma word_then_optional_s n word c rest :
  isWord word → c ≠ "s"%char →
  spaces1 (String " " (plural n word +:+ String c rest))
  ≫= (λ s, literal word s)
  = Some (if decide (n = "1") then String c rest
          else String "s" (String c rest))
  ∧ optChar "s" (if decide (n = "1") then String c rest
                 else String "s" (String c rest))
    = String c rest.
Proof.
  intros Hword Hc. unfold plural. split.
  - destruct Hword as [->|[->| ->]]; case_decide;
      rewrite ?append_assoc, ?append_cons, ?append_nil_l; reflexivity.
  - case_decide; simpl; [|done].
    destruct (Ascii.eqb_spec c "s"); done.
Qed.

Lemma literal_append p s : literal p (p +:+ s) = Some s.
Proof.
  induction p as [|a p IH]; [done|].
  rewrite append_cons. simpl. by rewrite Ascii.eqb_refl.
Qed.

Lemma countGroup_countText word sign0 sign n rest :
  isWord word → numeral n → sign0 ≠ "s"%char →
  countGroup word (String sign0 sign)
    (countText (Some n) word (String sign0 sign) +:+ rest)
  = Some (n, rest).
Proof.
  intros Hword Hn Hsign. unfold countGroup, countText.
  rewrite !append_assoc, !append_cons, !append_nil_l.
  cbn [literal Ascii.eqb Bool.eqb mbind option_bind spaces1 Js.isSpace].
  change (Js.isSpace " ") with true. cbv iota.
  cbn [mbind option_bind].
  rewrite dropSpaces_numeral by done.
  rewrite (digits1_numeral n " " _ Hn eq_refl).
  cbn [mbind option_bind].
  destruct (word_then_optional_s n word sign0 (sign +:+ rest) Hword Hsign)
    as [Hw Ho].
  destruct (spaces1 _) as [s|]; cbn [mbind option_bind] in *; [|done].
  rewrite Hw. cbn [mbind option_bind]. rewrite Ho, Ascii.eqb_refl.
  by rewrite literal_append.
Qed.

(** A group for the other word does not match. *)
Lemma countGroup_other n rest :
  numeral n →
  countGroup "insertion" "(+)"
    (countText (Some n) "deletion" "(-)" +:+ rest) = None.
Proof.
  intros Hn. unfold countGroup, countText.
  rewrite !append_assoc, !append_cons, !append_nil_l.
  cbn [literal Ascii.eqb Bool.eqb mbind option_bind spaces1 Js.isSpace].
  change (Js.isSpace " ") with true. cbv iota.
  cbn [mbind option_bind].
  rewrite dropSpaces_numeral by done.
  rewrite (digits1_numeral n " " _ Hn eq_refl).
  cbn [mbind option_bind]. unfold plural.
  case_decide; rewrite ?append_assoc, ?append_cons, ?append_nil_l;
    reflexivity.
Qed.

Lemma matchStats_skip pre s :
  noDigit pre = true → matchStats (pre +:+ s) = matchStats s.
Proof.
  induction pre as [|a pre IH]; [done|]. cbn [noDigit].
  intros [Ha Hpre]%andb_prop. apply negb_true_iff in Ha.
  rewrite append_cons. cbn [matchStats].
  assert (Hhere : matchHere (String a (pre +:+ s)) = None).
  { unfold matchHere, digits1. simpl. by rewrite Ha. }
  rewrite Hhere. by apply IH.
Qed.

Definition numeralIf (count : option string) : Prop :=
  ∀ n, count = Some n → numeral n.

Lemma matchHere_summaryText files ins del :
  numeral files → numeralIf ins → numeralIf del →
  matchHere (summaryText files ins del) = Some (files, ins, del).
Proof.
  intros Hf Hi Hd. unfold matchHere, summaryText.
  rewrite !append_cons, !append_nil_l.
  rewrite (digits1_numeral files " " _ Hf eq_refl).
  cbn [mbind option_bind].
  set (tail := countText ins "insertion" "(+)"
               +:+ countText del "deletion" "(-)").
  destruct (word_then_optional_s files "file" " " ("changed" +:+ tail)
              (or_introl eq_refl) ltac:(done)) as [Hw Ho].
  rewrite !append_cons, !append_nil_l in Hw, Ho.
  destruct (spaces1 (String " " (plural files "file" +:+ _))) as [s|];
    cbn [mbind option_bind] in *; [|done].
  rewrite Hw. cbn [mbind option_bind]. rewrite Ho.
  cbn [spaces1]. change (Js.isSpace " ") with true. cbv iota.
  cbn [Js.dropSpaces]. change (Js.isSpace "c") with false. cbv iota.
  cbn [mbind option_bind literal Ascii.eqb Bool.eqb].
  subst tail.
  destruct ins as [i|], del as [d|].
  - rewrite (countGroup_countText "insertion" "(" "+)" i _)
      by (try apply Hi; done || (right; by left)).
    rewrite <- (append_nil_r (countText (Some d) _ _)).
    rewrite (countGroup_countText "deletion" "(" "-)" d "")
      by (try apply Hd; done || (right; by right)).
    done.
  - rewrite (countGroup_countText "insertion" "(" "+)" i _)
      by (try apply Hi; done || (right; by left)).
    done.
  - change (countText None "insertion" "(+)" +:+ ?x) with x.
    rewrite <- (append_nil_r (countText (Some d) _ _)).
    rewrite (countGroup_other d "") by (by apply Hd).
    rewrite (countGroup_countText "deletion" "(" "-)" d "")
      by (try apply Hd; done || (right; by right)).
    done.
  - done.
Qed.

(** The regular expression of [parseGitStats] finds the summary git prints,
    wherever the line has no digit before it: the capture groups are the
    three numerals, the optional ones absent when git leaves them out, in
    the singular as in the plural wording. So, when the last line of the
    trimmed output is the summary for [files] files with [ins] insertions
    and [del] deletions, [parseGitStats] returns exactly these numbers,
    taking a part git left out as 0. *)
Theorem parseGitStats_reads_summary (output before : string) (files : Z)
    (ins del : option Z) :
  0 ≤ files →
  (∀ n, ins = Some n → 0 ≤ n) →
  (∀ n, del = Some n → 0 ≤ n) →
  noDigit before = true →
  last (Js.split "010" (Js.trim output))
  = Some (before +:+ summaryText (decimal files) (decimal <$> ins)
                       (decimal <$> del)) →
  parseGitStats output
  = {| Stats.linesAdded := default 0 ins;
       Stats.linesDeleted := default 0 del;
       Stats.filesChanged := files |}.
Proof.
  intros Hf Hi Hd Hbefore Hlast. unfold parseGitStats. rewrite Hlast.
  cbn [default from_option id].
  rewrite matchStats_skip by done.
  assert (Hmatch : matchStats (summaryText (decimal files) (decimal <$> ins)
                                 (decimal <$> del))
                   = Some (decimal files, decimal <$> ins, decimal <$> del)).
  { destruct (summaryText _ _ _) eqn:E; cbn [matchStats];
      rewrite <- E, matchHere_summaryText; try done.
    - by apply decimal_spec.
    - intros n. destruct ins as [i|]; [|done]. intros [= <-].
      by apply decimal_spec, Hi.
    - intros n. destruct del as [d|]; [|done]. intros [= <-].
      by apply decimal_spec, Hd.
    - by apply decimal_spec.
    - intros n. destruct ins as [i|]; [|done]. intros [= <-].
      by apply decimal_spec, Hi.
    - intros n. destruct del as [d|]; [|done]. intros [= <-].
      by apply decimal_spec, Hd. }
  rewrite Hmatch. unfold parseIntOr0.
  destruct (decimal_spec files Hf) as [_ ->]. f_equal.
  - destruct ins as [i|]; [|done]. simpl.
    by destruct (decimal_spec i (Hi i eq_refl)) as [_ ->].
  - destruct del as [d|]; [|done]. simpl.
    by destruct (decimal_spec d (Hd d eq_refl)) as [_ ->].
Qed.

Lemma parseGitStats_reads_summary_witness :
  parseGitStats " src/a.ts | 14 +++++++++++---
 src/b.ts |  1 -
 2 files changed, 12 insertions(+), 1 deletion(-)
"
  = {| Stats.linesAdded := 12; Stats.linesDeleted := 1;
       Stats.filesChanged := 2 |}.
Proof.
  apply (parseGitStats_reads_summary _ " " 2 (Some 12) (Some 1));
    [lia|intros n [= <-]; lia|intros n [= <-]; lia|done|by vm_compute].
Defined.

End SummaryLine.
